(** * A static Huffman codec over the alphabet A-Z plus space

    Shallow embedding of [huffman.py] and proofs of its specification.

    Python values are modelled as follows: a [str] is a list of Unicode
    code points ([N]); an [int] is a [Z]; a [list] is a [list], indexed
    the way Python does it (a negative index counts from the end, an
    index out of range raises [IndexError]); a function that can raise
    returns an [outcome]; an in-place update of a list returns the new
    list. *)

From Stdlib Require Import ZArith NArith Lia Ascii.
From stdpp Require Import base list numbers strings.

#[local] Open Scope Z_scope.

(** ** Python strings *)

(** The code point of an ASCII character literal. *)
Definition cp (a : ascii) : N := N_of_ascii a.
Arguments cp a%_char : simpl never.

(** A Python string literal (ASCII only). *)
Definition lit (s : string) : list N := cp <$> String.list_ascii_of_string s.
Arguments lit s%_string : simpl never.

Definition ord (c : N) : Z := Z.of_N c.
Arguments ord : simpl never.

(** [chr] is only called with [i + ord("A")] for [i] in [range(26)]. *)
Definition chr (i : Z) : N := Z.to_N i.
Arguments chr : simpl never.

(** ** Exceptions *)

Inductive exn : Set := IndexError | AttributeError.

(** [OutOfFuel] is not a Python outcome: it is what the bounded [while]
    loop of the model answers when its bound is too small.
    [build_huffman_tree_total] shows that it is never the answer. *)
Inductive outcome (A : Type) : Type :=
  | Ok (a : A)
  | Raise (e : exn)
  | OutOfFuel.
Arguments Ok {A} a.
Arguments Raise {A} e.
Arguments OutOfFuel {A}.

#[global] Instance outcome_ret : MRet outcome := @Ok.
#[global] Instance outcome_bind : MBind outcome := λ A B f m,
  match m with
  | Ok a => f a
  | Raise e => Raise e
  | OutOfFuel => OutOfFuel
  end.

(** ** Python lists *)

(** The position that the index [i] designates in [l]. *)
Definition py_index {A} (l : list A) (i : Z) : outcome nat :=
  let n := Z.of_nat (length l) in
  if decide (0 <= i < n) then Ok (Z.to_nat i)
  else if decide (- n <= i < 0) then Ok (Z.to_nat (i + n))
  else Raise IndexError.

(** [l[i]] *)
Definition getitem {A} (l : list A) (i : Z) : outcome A :=
  k ← py_index l i; from_option Ok (Raise IndexError) (l !! k).

(** [l[i] = x] *)
Definition setitem {A} (l : list A) (i : Z) (x : A) : outcome (list A) :=
  k ← py_index l i; mret (<[k := x]> l).

(** [l[:k]] and [l[k:]] *)
Definition slice_to {A} (l : list A) (k : Z) : list A :=
  take (Z.to_nat (if decide (k < 0) then k + Z.of_nat (length l) else k)) l.
Definition slice_from {A} (l : list A) (k : Z) : list A :=
  drop (Z.to_nat (if decide (k < 0) then k + Z.of_nat (length l) else k)) l.

(** [range(lo, hi)] *)
Definition range (lo hi : Z) : list Z := seqZ lo (hi - lo).

(** [sum(l)]; integer addition is associative, so the direction of the
    fold does not matter. *)
Definition sum (l : list Z) : Z := foldr Z.add 0 l.

(** [for x in xs: body], threading the variables the body assigns. *)
Fixpoint for_in {A S} (xs : list A) (body : A → S → outcome S) (s : S) : outcome S :=
  match xs with
  | [] => Ok s
  | x :: xs' => s' ← body x s; for_in xs' body s'
  end.

(** ** The built-in [str.upper] and [str.isalpha]

    Python's case mapping and letter test, written out for the code
    points U+0000 to U+00FF (ASCII and Latin-1), together with the two
    code points above U+00FF that upper-casing a Latin-1 letter produces. *)
Definition char_upper (c : N) : list N :=
  if decide (97 <= c <= 122)%N then [(c - 32)%N]
  else if decide (c = 181)%N then [924%N]
  else if decide (c = 223)%N then [83%N; 83%N]
  else if decide (224 <= c <= 254 ∧ c ≠ 247)%N then [(c - 32)%N]
  else if decide (c = 255)%N then [376%N]
  else [c].

Definition str_upper (s : list N) : list N := s ≫= char_upper.

Definition char_isalpha (c : N) : bool :=
  bool_decide (65 <= c <= 90 ∨ 97 <= c <= 122 ∨ c = 170 ∨ c = 181 ∨ c = 186
               ∨ 192 <= c <= 214 ∨ 216 <= c <= 246 ∨ 248 <= c <= 255
               ∨ c = 376 ∨ c = 924)%N.

(** ** The class [Node] *)

(** Modelled from the spec: the class [Node] ([Node.py], imported by
    [huffman.py]) is not part of the sources at hand. The specification
    describes a node as a tagged variant: a leaf holds a weight and a
    symbol and has no children, an internal node holds a weight and two
    children and has no symbol. [Leaf w c] is what [Node(w, c)] builds;
    [Internal w l r] is what [Node(w)] followed by [set_left(l)] and
    [set_right(r)] builds. *)
Inductive Node : Type :=
  | Leaf (weight : Z) (symbol : N)
  | Internal (weight : Z) (left right : Node).

Definition get_frequency (n : Node) : Z :=
  match n with
  | Leaf w _ => w
  | Internal w _ _ => w
  end.

Definition get_symbol (n : Node) : option N :=
  match n with
  | Leaf _ c => Some c
  | Internal _ _ _ => None
  end.

Definition get_left (n : Node) : option Node :=
  match n with
  | Leaf _ _ => None
  | Internal _ l _ => Some l
  end.

Definition get_right (n : Node) : option Node :=
  match n with
  | Leaf _ _ => None
  | Internal _ _ r => Some r
  end.

(** Calling a method on what a getter returned: on [None] this is an
    [AttributeError]. *)
Definition deref {A} (o : option A) : outcome A :=
  from_option Ok (Raise AttributeError) o.

(** ** The functions of [huffman.py] *)

Definition filter_uppercase_and_spaces (input_string : list N) : list N :=
  filter (λ c, char_isalpha c || bool_decide (c = cp " ")) (str_upper input_string).

Definition count_frequencies (input_string : list N) : outcome (list Z) :=
  for_in input_string
    (λ ch frequencies,
       if decide (ch ≠ cp " ") then
         let index := ord ch - ord (cp "A") in
         v ← getitem frequencies index;
         setitem frequencies index (v + 1)
       else mret frequencies)
    (replicate 26 0).

Definition initialize_forest (frequencies : list Z) : outcome (list Node) :=
  forest ← for_in (range 0 26)
    (λ i forest,
       f ← getitem frequencies i;
       if decide (f > 0) then
         let symbol := chr (i + ord (cp "A")) in
         mret (forest ++ [Leaf f symbol])
       else mret forest)
    [];
  let space_freq := Z.max (sum frequencies) 1 in
  mret (forest ++ [Leaf space_freq (cp " ")]).

(** [get_smallest] empties one slot of the forest in place: the model
    returns the node together with the forest that is left. *)
Definition get_smallest (forest : list Node) : outcome (Node * list Node) :=
  smallest_index ← for_in (range 1 (Z.of_nat (length forest)))
    (λ i smallest_index,
       a ← getitem forest i;
       b ← getitem forest smallest_index;
       mret (if decide (get_frequency a < get_frequency b) then i else smallest_index))
    0;
  node ← getitem forest smallest_index;
  mret (node, slice_to forest smallest_index ++ slice_from forest (smallest_index + 1)).

(** The [while len(forest) > 1] loop, with a bound on its iterations. *)
Fixpoint merge_loop (fuel : nat) (forest : list Node) : outcome (list Node) :=
  if decide (Z.of_nat (length forest) > 1) then
    match fuel with
    | O => OutOfFuel
    | S fuel' =>
        '(left_, forest) ← get_smallest forest;
        '(right_, forest) ← get_smallest forest;
        let parent := Internal (get_frequency left_ + get_frequency right_) left_ right_ in
        merge_loop fuel' (forest ++ [parent])
    end
  else mret forest.

(** Every iteration takes two nodes out and puts one back, so the loop
    body runs fewer than [len(forest)] times. *)
Definition build_huffman_tree (frequencies : list Z) : outcome Node :=
  forest ← initialize_forest frequencies;
  forest ← merge_loop (length forest) forest;
  getitem forest 0.

(** The inner function [traverse] of [build_encoding_table]; the table
    it closes over is threaded through. A node with a symbol is a leaf. *)
Fixpoint traverse (node : Node) (prefix : list N) (table : list (list N))
  : outcome (list (list N)) :=
  match node with
  | Leaf _ symbol =>
      if decide (symbol = cp " ") then setitem table 26 prefix
      else
        let index := ord symbol - ord (cp "A") in
        setitem table index prefix
  | Internal _ l r =>
      table ← traverse l (prefix ++ lit "0") table;
      traverse r (prefix ++ lit "1") table
  end.

Definition build_encoding_table (huffman_tree_root : Node) : outcome (list (list N)) :=
  traverse huffman_tree_root (lit "") (replicate 27 (lit "")).

Definition encode (input_string : list N) (encoding_table : list (list N)) : outcome (list N) :=
  for_in input_string
    (λ ch encoded,
       if decide (ch = cp " ") then
         code ← getitem encoding_table 26; mret (encoded ++ code)
       else
         let index := ord ch - ord (cp "A") in
         code ← getitem encoding_table index; mret (encoded ++ code))
    (lit "").

(** One turn of the loop of [decode], on the pair of [result] and [node]. *)
Definition decode_step (huffman_root : Node) (bit : N) (st : list N * Node)
  : outcome (list N * Node) :=
  let '(result, node) := st in
  node ← deref (if decide (bit = cp "0") then get_left node else get_right node);
  match get_symbol node with
  | Some symbol => mret (result ++ [symbol], huffman_root)
  | None => mret (result, node)
  end.

Definition decode (encoded_string : list N) (huffman_root : Node) : outcome (list N) :=
  '(result, _) ← for_in encoded_string (decode_step huffman_root) (lit "", huffman_root);
  mret result.

(** The pipeline of the test block: count, build the tree and the table,
    encode, decode. *)
Definition round_trip (s : list N) : outcome (list N) :=
  freqs ← count_frequencies s;
  tree ← build_huffman_tree freqs;
  table ← build_encoding_table tree;
  encoded ← encode s table;
  decode encoded tree.

(** ** Vocabulary of the specification *)

(** The 27 symbols. *)
Definition is_letter (c : N) : Prop := (cp "A" <= c <= cp "Z")%N.
Definition in_alphabet (c : N) : Prop := c = cp " " ∨ is_letter c.

(** The letter of index [i]. *)
Definition letter (i : nat) : N := chr (Z.of_nat i + ord (cp "A")).

(** The position of a symbol in an encoding table: 26 for the space,
    [ord(c) - ord("A")] for a letter. *)
Definition slot (c : N) : nat :=
  if decide (c = cp " ") then 26%nat else Z.to_nat (ord c - ord (cp "A")).

(** The leaves of a tree from left to right, as pairs of weight and symbol. *)
Fixpoint leaves (t : Node) : list (Z * N) :=
  match t with
  | Leaf w c => [(w, c)]
  | Internal _ l r => leaves l ++ leaves r
  end.

Definition leaf_weights (t : Node) : list Z := (leaves t).*1.
Definition symbols (t : Node) : list N := (leaves t).*2.

(** Every symbol of a tree with its root-to-leaf path, "0" for a step to
    the left and "1" for a step to the right. *)
Fixpoint paths (t : Node) : list (N * list N) :=
  match t with
  | Leaf _ c => [(c, [])]
  | Internal _ l r =>
      (prod_map id (cons (cp "0")) <$> paths l)
        ++ (prod_map id (cons (cp "1")) <$> paths r)
  end.

(** The path of the first leaf that holds [c]; empty when there is none. *)
Fixpoint assoc (c : N) (kvs : list (N * list N)) : list N :=
  match kvs with
  | [] => []
  | (k, v) :: rest => if decide (k = c) then v else assoc c rest
  end.

Definition code_of (t : Node) (c : N) : list N := assoc c (paths t).

(** The table once the codes [prefix + p] of the pairs [(c, p)] of [kvs]
    have been stored, from first to last, each at the slot of its symbol. *)
Definition fill (table : list (list N)) (prefix : list N) (kvs : list (N * list N))
  : list (list N) :=
  foldl (λ tb kv, <[slot kv.1 := prefix ++ kv.2]> tb) table kvs.

(** The weight of every node is the sum of the weights of its children. *)
Fixpoint well_weighted (t : Node) : Prop :=
  match t with
  | Leaf _ _ => True
  | Internal w l r =>
      w = get_frequency l + get_frequency r ∧ well_weighted l ∧ well_weighted r
  end.

(** The forest that [initialize_forest] starts from for the letters
    [i], [i + 1], ... whose frequencies are [frequencies]. *)
Fixpoint letter_leaves (i : nat) (frequencies : list Z) : list Node :=
  match frequencies with
  | [] => []
  | f :: rest =>
      (if decide (f > 0) then [Leaf f (letter i)] else []) ++ letter_leaves (S i) rest
  end.

(** [k] is the first position of a node of least weight among the first
    [n] nodes of the forest. *)
Definition first_min (forest : list Node) (n k : nat) : Prop :=
  (k < n)%nat ∧
  ∃ x, forest !! k = Some x ∧
    (∀ j y, (j < n)%nat → forest !! j = Some y → get_frequency x <= get_frequency y) ∧
    (∀ j y, (j < k)%nat → forest !! j = Some y → get_frequency x < get_frequency y).

(** A bit-string is well formed for a tree when it is a concatenation of
    whole root-to-leaf paths. *)
Definition well_formed_bits (t : Node) (bits : list N) : Prop :=
  ∃ ps : list (N * list N), Forall (λ p, p ∈ paths t) ps ∧ bits = ps ≫= snd.

(** The number of occurrences of [c] in [s]. *)
Definition occurrences (c : N) (s : list N) : Z :=
  Z.of_nat (length (filter (λ x, x = c) s)).

(** The normalisation as the specification words it, for ASCII text:
    discard what is neither a letter nor a space, fold the case. *)
Definition ascii_is_alpha (c : N) : Prop := (65 <= c <= 90 ∨ 97 <= c <= 122)%N.
Definition ascii_upper (c : N) : N :=
  if decide (97 <= c <= 122)%N then (c - 32)%N else c.
Definition normalize_ascii (s : list N) : list N :=
  ascii_upper <$> filter (λ c, ascii_is_alpha c ∨ c = cp " ") s.

(** The worked example of the specification. *)
Definition hello_world : list N := lit "HELLO WORLD".
Definition hello_freqs : list Z :=
  [0; 0; 0; 1; 1; 0; 0; 1; 0; 0; 0; 3; 0; 0; 2; 0; 0; 1; 0; 0; 0; 0; 1; 0; 0; 0].
Definition hello_tree : Node :=
  Internal 20 (Leaf 10 (cp " "))
    (Internal 10
       (Internal 4 (Internal 2 (Leaf 1 (cp "D")) (Leaf 1 (cp "E")))
                   (Internal 2 (Leaf 1 (cp "H")) (Leaf 1 (cp "R"))))
       (Internal 6 (Leaf 3 (cp "L"))
                   (Internal 3 (Leaf 1 (cp "W")) (Leaf 2 (cp "O"))))).

Definition hello_forest : list Node :=
  [Leaf 1 (cp "D"); Leaf 1 (cp "E"); Leaf 1 (cp "H"); Leaf 3 (cp "L");
   Leaf 2 (cp "O"); Leaf 1 (cp "R"); Leaf 1 (cp "W"); Leaf 10 (cp " ")].
Definition hello_table : list (list N) :=
  [lit ""; lit ""; lit ""; lit "1000"; lit "1001"; lit ""; lit ""; lit "1010";
   lit ""; lit ""; lit ""; lit "110"; lit ""; lit ""; lit "1111"; lit "";
   lit ""; lit "1011"; lit ""; lit ""; lit ""; lit ""; lit "1110"; lit "";
   lit ""; lit ""; lit "0"].

(** ** Vocabulary of the further properties *)

(** The letter that [count_frequencies] counts a character as: the
    characters from "'" to "@" have a negative offset from "A", which
    Python reads from the end of the 26 counters. *)
Definition count_alias (c : N) : N :=
  if decide (39 <= c <= 64)%N then (c + 26)%N else c.

(** The characters of a bit-string. *)
Definition is_bit (b : N) : Prop := b = cp "0" ∨ b = cp "1".

(** The bit that [decode] reads a character as. *)
Definition read_bit (b : N) : N := if decide (b = cp "0") then cp "0" else cp "1".

(** * Proofs *)

(** ** The error monad and the list primitives *)

Section primitives.
Context {A : Type}.
Implicit Types (l : list A) (x : A).

Lemma bind_Ok {B C} (m : outcome B) (f : B → outcome C) c :
  m ≫= f = Ok c ↔ ∃ b, m = Ok b ∧ f b = Ok c.
Proof.
  split.
  - destruct m; simpl; [eauto | done | done].
  - by intros (b & -> & ?).
Qed.

Lemma py_index_nat l (k : nat) :
  (k < length l)%nat → py_index l (Z.of_nat k) = Ok k.
Proof.
  intros Hk. unfold py_index. rewrite decide_True by lia. by rewrite Nat2Z.id.
Qed.

Lemma py_index_range l i k :
  py_index l i = Ok k → (k < length l)%nat.
Proof.
  unfold py_index. repeat case_decide; intros [= <-]; lia.
Qed.

Lemma getitem_nat l (k : nat) x :
  l !! k = Some x → getitem l (Z.of_nat k) = Ok x.
Proof.
  intros Hk. unfold getitem.
  rewrite py_index_nat by (by eapply lookup_lt_Some). simpl. by rewrite Hk.
Qed.

Lemma setitem_nat l (k : nat) x :
  (k < length l)%nat → setitem l (Z.of_nat k) x = Ok (<[k := x]> l).
Proof. intros Hk. unfold setitem. by rewrite py_index_nat. Qed.

Lemma getitem_fails l i :
  ¬ (- Z.of_nat (length l) <= i < Z.of_nat (length l)) → getitem l i = Raise IndexError.
Proof.
  intros Hi. unfold getitem, py_index. by rewrite !decide_False by lia.
Qed.

Lemma getitem_succeeds l i :
  - Z.of_nat (length l) <= i < Z.of_nat (length l) → ∃ x, getitem l i = Ok x.
Proof.
  intros Hi. unfold getitem, py_index.
  destruct (decide (0 <= i < Z.of_nat (length l))) as [H0|H0]; simpl.
  - destruct (lookup_lt_is_Some_2 l (Z.to_nat i)) as [x ->]; [lia|]. by exists x.
  - rewrite decide_True by lia. simpl.
    destruct (lookup_lt_is_Some_2 l (Z.to_nat (i + Z.of_nat (length l)))) as [x ->]; [lia|].
    by exists x.
Qed.

Lemma slice_delete l (k : nat) :
  slice_to l (Z.of_nat k) ++ slice_from l (Z.of_nat k + 1) = delete k l.
Proof.
  unfold slice_to, slice_from. rewrite !decide_False by lia.
  rewrite Nat2Z.id. replace (Z.to_nat (Z.of_nat k + 1)) with (S k) by lia.
  by rewrite delete_take_drop.
Qed.

Lemma for_in_app {B S} (xs ys : list B) (body : B → S → outcome S) s :
  for_in (xs ++ ys) body s = for_in xs body s ≫= for_in ys body.
Proof.
  revert s. induction xs as [|x xs IH]; intros s; [done|]. simpl.
  destruct (body x s); simpl; auto.
Qed.

End primitives.

(** Code points of the character literals, as numbers. *)
Ltac norm_cp :=
  change (cp " ") with 32%N in *; change (cp "A") with 65%N in *;
  change (cp "Z") with 90%N in *; change (cp "0") with 48%N in *;
  change (cp "1") with 49%N in *;
  change (lit "") with (@nil N) in *;
  change (lit "0") with [48%N] in *; change (lit "1") with [49%N] in *.

Ltac unfold_alphabet :=
  unfold in_alphabet, is_letter, letter, slot, ord, chr in *; norm_cp.

Lemma bind_Ok_l {A B} (a : A) (f : A → outcome B) : Ok a ≫= f = f a.
Proof. done. Qed.

Lemma mret_Ok {A} (a : A) : mret a = Ok a.
Proof. done. Qed.

(** Run the binds at the head of the goal, leaving loop bodies alone. *)
Ltac run := repeat first [rewrite bind_Ok_l | rewrite mret_Ok].

(** ** [get_smallest] *)

Section get_smallest.
Implicit Types (forest : list Node).

Lemma first_min_step forest a k x y :
  first_min forest a k →
  forest !! k = Some x → forest !! a = Some y →
  first_min forest (S a)
    (if decide (get_frequency y < get_frequency x) then a else k).
Proof.
  intros (Hk & x' & Hx' & Hle & Hlt) Hx Hy.
  assert (x' = x) as -> by congruence.
  case_decide as Hc.
  - split; [lia|]. exists y. split_and!; [done| |].
    + intros j z Hj Hz. destruct (decide (j = a)) as [->|].
      * assert (z = y) as -> by congruence. lia.
      * pose proof (Hle j z ltac:(lia) Hz). lia.
    + intros j z Hj Hz. pose proof (Hle j z ltac:(lia) Hz). lia.
  - split; [lia|]. exists x. split_and!; [done| |done].
    intros j z Hj Hz. destruct (decide (j = a)) as [->|].
    + assert (z = y) as -> by congruence. lia.
    + apply (Hle j z); [lia|done].
Qed.

Lemma get_smallest_scan forest n : ∀ a k,
  first_min forest a k → (a + n)%nat = length forest →
  ∃ k', for_in (seqZ (Z.of_nat a) (Z.of_nat n))
          (λ i smallest_index,
             a ← getitem forest i;
             b ← getitem forest smallest_index;
             mret (if decide (get_frequency a < get_frequency b) then i
                   else smallest_index))
          (Z.of_nat k) = Ok (Z.of_nat k')
        ∧ first_min forest (length forest) k'.
Proof.
  induction n as [|n IH]; intros a k Hmin Hlen.
  - exists k. split; [done|]. by replace (length forest) with a by lia.
  - rewrite seqZ_cons by lia. simpl.
    destruct (lookup_lt_is_Some_2 forest a) as [y Hy]; [lia|].
    destruct Hmin as (Hk & x & Hx & Hrest).
    rewrite (getitem_nat _ _ _ Hy), (getitem_nat _ _ _ Hx). simpl.
    destruct (IH (S a) (if decide (get_frequency y < get_frequency x) then a else k))
      as (k' & Hrun & Hmin'); [|lia|].
    { apply first_min_step; [|done..]. split; [done|]. by exists x. }
    exists k'. split; [|done]. rewrite <- Hrun.
    replace (Z.succ (Z.of_nat a)) with (Z.of_nat (S a)) by lia.
    replace (Z.pred (Z.of_nat (S n))) with (Z.of_nat n) by lia.
    f_equal. by case_decide.
Qed.

Lemma first_min_0 forest x : forest !! 0%nat = Some x → first_min forest 1 0.
Proof.
  intros Hx. split; [lia|]. exists x. split_and!; [done| |intros; lia].
  intros j y Hj Hy. replace j with 0%nat in Hy by lia.
  assert (y = x) as -> by congruence. lia.
Qed.

Lemma get_smallest_spec forest :
  forest ≠ [] →
  ∃ k x, get_smallest forest = Ok (x, delete k forest)
         ∧ forest !! k = Some x ∧ first_min forest (length forest) k.
Proof.
  intros Hne. destruct forest as [|x0 rest]; [done|].
  destruct (get_smallest_scan (x0 :: rest) (length rest) 1 0) as (k & Hrun & Hmin).
  { by apply (first_min_0 _ x0). }
  { done. }
  pose proof Hmin as (Hk & x & Hx & _).
  exists k, x. split; [|done].
  unfold get_smallest, range.
  replace (Z.of_nat (length (x0 :: rest)) - 1) with (Z.of_nat (length rest))
    by (simpl; lia).
  change (Z.of_nat 1) with 1 in Hrun. change (Z.of_nat 0) with 0 in Hrun.
  rewrite Hrun. simpl. rewrite (getitem_nat _ _ _ Hx). simpl.
  by rewrite slice_delete.
Qed.

Lemma get_smallest_empty : get_smallest [] = Raise IndexError.
Proof. reflexivity. Qed.

Lemma get_smallest_perm forest x rest :
  get_smallest forest = Ok (x, rest) → forest ≡ₚ x :: rest.
Proof.
  intros Hget. destruct (decide (forest = [])) as [->|Hne]; [done|].
  destruct (get_smallest_spec forest Hne) as (k & y & Hrun & Hy & _).
  rewrite Hrun in Hget. injection Hget as <- <-.
  by apply delete_Permutation.
Qed.

End get_smallest.

(** ** [initialize_forest] *)

Section initialize_forest.

Lemma initialize_forest_scan post : ∀ pre acc,
  for_in (seqZ (Z.of_nat (length pre)) (Z.of_nat (length post)))
    (λ i forest,
       f ← getitem (pre ++ post) i;
       if decide (f > 0) then mret (forest ++ [Leaf f (chr (i + ord (cp "A")))])
       else mret forest)
    acc
  = Ok (acc ++ letter_leaves (length pre) post).
Proof.
  induction post as [|f post IH]; intros pre acc.
  - simpl. by rewrite app_nil_r.
  - rewrite seqZ_cons by (simpl; lia). cbn [for_in].
    rewrite (getitem_nat _ _ f) by (by rewrite list_lookup_middle).
    replace (Z.pred (Z.of_nat (length (f :: post)))) with (Z.of_nat (length post))
      by (simpl; lia).
    replace (Z.succ (Z.of_nat (length pre))) with (Z.of_nat (length (pre ++ [f])))
      by (rewrite length_app; simpl; lia).
    specialize (IH (pre ++ [f])). rewrite <- (assoc_L (++)) in IH. simpl in IH.
    simpl. case_decide; simpl; rewrite IH.
    + rewrite length_app. simpl. rewrite Nat.add_1_r. by rewrite <- (assoc_L (++)).
    + rewrite length_app. simpl. by rewrite Nat.add_1_r.
Qed.

Lemma initialize_forest_scan_eq frequencies pre post acc i n :
  frequencies = pre ++ post →
  i = Z.of_nat (length pre) → n = Z.of_nat (length post) →
  for_in (seqZ i n)
    (λ i forest,
       f ← getitem frequencies i;
       if decide (f > 0) then mret (forest ++ [Leaf f (chr (i + ord (cp "A")))])
       else mret forest)
    acc
  = Ok (acc ++ letter_leaves (length pre) post).
Proof. intros -> -> ->. apply initialize_forest_scan. Qed.

Lemma initialize_forest_spec frequencies :
  length frequencies = 26%nat →
  initialize_forest frequencies
  = Ok (letter_leaves 0 frequencies ++ [Leaf (Z.max (sum frequencies) 1) (cp " ")]).
Proof.
  intros Hlen. unfold initialize_forest, range.
  rewrite (initialize_forest_scan_eq frequencies [] frequencies [] 0 (26 - 0))
    by (done || by rewrite Hlen).
  done.
Qed.

(** The symbols of the letter leaves are the letters of positive frequency. *)
Lemma elem_of_letter_leaves t frequencies : ∀ i,
  t ∈ letter_leaves i frequencies ↔
  ∃ j f, frequencies !! j = Some f ∧ f > 0 ∧ t = Leaf f (letter (i + j)).
Proof.
  induction frequencies as [|f0 rest IH]; intros i; simpl.
  - split; [by intros ?%elem_of_nil|]. by intros (j & f & ? & _).
  - rewrite elem_of_app, IH. split.
    + intros [Hhd|(j & f & Hj & Hf & ->)].
      * case_decide; [|by apply elem_of_nil in Hhd].
        apply list_elem_of_singleton in Hhd as ->.
        exists 0%nat, f0. by rewrite Nat.add_0_r.
      * exists (S j), f. by rewrite Nat.add_succ_r.
    + intros (j & f & Hj & Hf & ->). destruct j as [|j]; simpl in Hj.
      * injection Hj as ->. left. rewrite decide_True by done.
        rewrite Nat.add_0_r. apply list_elem_of_singleton. done.
      * right. exists j, f. by rewrite Nat.add_succ_r.
Qed.

End initialize_forest.

(** ** The merge loop and [build_huffman_tree] *)

Section build_huffman_tree.
Implicit Types (forest : list Node) (t : Node).

Lemma sum_app (l1 l2 : list Z) : sum (l1 ++ l2) = sum l1 + sum l2.
Proof. unfold sum. induction l1 as [|x l1 IH]; simpl; lia. Qed.

Lemma sum_perm (l1 l2 : list Z) : l1 ≡ₚ l2 → sum l1 = sum l2.
Proof. unfold sum. induction 1; simpl; lia. Qed.

Lemma well_weighted_root t :
  well_weighted t → get_frequency t = sum (leaf_weights t).
Proof.
  unfold leaf_weights. induction t as [w c|w l IHl r IHr]; simpl.
  - intros _. lia.
  - intros (-> & Hl & Hr). rewrite fmap_app, sum_app. rewrite IHl, IHr; done.
Qed.

Lemma merge_loop_done fuel forest :
  ¬ Z.of_nat (length forest) > 1 → merge_loop fuel forest = Ok forest.
Proof. intros Hlen. destruct fuel; simpl; by rewrite decide_False. Qed.

Lemma merge_loop_step fuel forest :
  Z.of_nat (length forest) > 1 →
  merge_loop (S fuel) forest =
    '(left_, forest) ← get_smallest forest;
    '(right_, forest) ← get_smallest forest;
    merge_loop fuel
      (forest ++ [Internal (get_frequency left_ + get_frequency right_) left_ right_]).
Proof. intros Hlen. simpl. by rewrite decide_True. Qed.

(** What the loop leaves: one tree, made of the leaves of the forest. *)
Lemma merge_loop_spec fuel : ∀ forest,
  forest ≠ [] → (length forest ≤ S fuel)%nat →
  ∃ t, merge_loop fuel forest = Ok [t]
       ∧ leaves t ≡ₚ forest ≫= leaves
       ∧ (Forall well_weighted forest → well_weighted t)
       ∧ (length forest = 1%nat → forest = [t])
       ∧ ((1 < length forest)%nat → get_symbol t = None).
Proof.
  induction fuel as [|fuel IH]; intros forest Hne Hlen.
  - destruct forest as [|t [|??]]; [done| |simpl in Hlen; lia].
    exists t. rewrite merge_loop_done by (simpl; lia). simpl.
    rewrite app_nil_r. split_and!; [done|done| |done|simpl; lia].
    by intros [? _]%Forall_cons.
  - destruct (decide (Z.of_nat (length forest) > 1)) as [Hgt|Hle]; last first.
    { destruct forest as [|t [|??]]; [done| |simpl in Hle; lia].
      exists t. rewrite merge_loop_done by done. simpl.
      rewrite app_nil_r. split_and!; [done|done| |done|simpl; lia].
      by intros [? _]%Forall_cons. }
    rewrite merge_loop_step by done.
    destruct (get_smallest_spec forest Hne) as (k & x & Hrun & Hx & _).
    rewrite Hrun. simpl.
    assert (length (delete k forest) = pred (length forest)) as Hlen1.
    { rewrite length_delete; [lia|eauto]. }
    assert (forest ≡ₚ x :: delete k forest) as Hperm1 by by apply delete_Permutation.
    destruct (get_smallest_spec (delete k forest)) as (k2 & y & Hrun2 & Hy & _).
    { intros Heq. rewrite Heq in Hlen1. simpl in Hlen1. lia. }
    rewrite Hrun2. simpl.
    set (rest := delete k2 (delete k forest)).
    assert (length rest = pred (pred (length forest))) as Hlen2.
    { unfold rest. rewrite length_delete; [lia|eauto]. }
    assert (delete k forest ≡ₚ y :: rest) as Hperm2 by by apply delete_Permutation.
    set (parent := Internal (get_frequency x + get_frequency y) x y).
    destruct (IH (rest ++ [parent])) as (t & Hloop & Hleaves & Hww & Hone & Hmany).
    { by intros [? ?]%app_eq_nil. }
    { rewrite length_app. simpl. lia. }
    exists t. split_and!; [done| | |lia|].
    + rewrite Hleaves, Hperm1, Hperm2. rewrite bind_app. simpl.
      rewrite app_nil_r. rewrite (comm (++)). by rewrite (assoc_L (++)).
    + intros Hall. apply Hww. rewrite Hperm1, Hperm2 in Hall.
      apply Forall_cons in Hall as [Hwx Hall]. apply Forall_cons in Hall as [Hwy Hall].
      apply Forall_app. split; [done|]. apply Forall_singleton. done.
    + intros _. destruct (decide (length (rest ++ [parent]) = 1%nat)) as [H1|Hn1].
      * specialize (Hone H1). destruct rest as [|? rest'].
        -- simpl in Hone. by injection Hone as <-.
        -- rewrite length_app in H1. simpl in H1. lia.
      * apply Hmany. rewrite length_app in *. simpl in *. lia.
Qed.

(** The bound of the loop is of no consequence once it is large enough. *)
Lemma merge_loop_fuel fuel1 : ∀ fuel2 forest,
  forest ≠ [] → (length forest ≤ S fuel1)%nat → (length forest ≤ S fuel2)%nat →
  merge_loop fuel1 forest = merge_loop fuel2 forest.
Proof.
  induction fuel1 as [|fuel1 IH]; intros fuel2 forest Hne H1 H2.
  - rewrite !merge_loop_done; [done|lia..].
  - destruct (decide (Z.of_nat (length forest) > 1)) as [Hgt|Hle];
      [|by rewrite !merge_loop_done].
    destruct fuel2 as [|fuel2]; [lia|]. rewrite !merge_loop_step by done.
    destruct (get_smallest_spec forest Hne) as (k & x & -> & Hx & _). simpl.
    assert (length (delete k forest) = pred (length forest)) as Hlen1.
    { rewrite length_delete; [lia|eauto]. }
    destruct (get_smallest_spec (delete k forest)) as (k2 & y & -> & Hy & _).
    { intros Heq. rewrite Heq in Hlen1. simpl in Hlen1. lia. }
    simpl.
    assert (length (delete k2 (delete k forest)) = pred (pred (length forest))).
    { rewrite length_delete; [lia|eauto]. }
    apply IH; [by intros [? ?]%app_eq_nil|rewrite length_app; simpl; lia..].
Qed.

(** The tree built from a table of 26 frequencies. *)
Lemma build_huffman_tree_spec frequencies :
  length frequencies = 26%nat →
  let forest :=
    letter_leaves 0 frequencies ++ [Leaf (Z.max (sum frequencies) 1) (cp " ")] in
  ∃ t, build_huffman_tree frequencies = Ok t
       ∧ leaves t ≡ₚ forest ≫= leaves
       ∧ well_weighted t
       ∧ (letter_leaves 0 frequencies = [] →
          t = Leaf (Z.max (sum frequencies) 1) (cp " "))
       ∧ (letter_leaves 0 frequencies ≠ [] → get_symbol t = None).
Proof.
  intros Hlen forest. unfold build_huffman_tree.
  rewrite initialize_forest_spec by done. cbn [mbind outcome_bind]. fold forest.
  destruct (merge_loop_spec (length forest) forest)
    as (t & Hloop & Hleaves & Hww & Hone & Hmany); [|lia|].
  { unfold forest. by intros [? ?]%app_eq_nil. }
  rewrite Hloop. simpl. exists t. split_and!; [done|done| | |].
  - apply Hww. unfold forest. apply Forall_app. split.
    + apply Forall_forall. intros n (j & f & _ & _ & ->)%elem_of_letter_leaves. done.
    + by apply Forall_singleton.
  - intros Hnil. unfold forest in Hone. rewrite Hnil in Hone.
    specialize (Hone eq_refl). by injection Hone as <-.
  - intros Hnn. apply Hmany. unfold forest. rewrite length_app. simpl.
    destruct (letter_leaves 0 frequencies); [done|simpl; lia].
Qed.

(** The bound given to the loop is enough, whatever the table: the
    build either returns a tree or raises. *)
Lemma for_in_fuel {B S} (xs : list B) (body : B → S → outcome S) s :
  (∀ x s, body x s ≠ OutOfFuel) → for_in xs body s ≠ OutOfFuel.
Proof.
  intros Hbody. revert s. induction xs as [|x xs IH]; intros s; [done|].
  simpl. specialize (Hbody x s). destruct (body x s); simpl; auto.
Qed.

Lemma getitem_fuel {B} (l : list B) i : getitem l i ≠ OutOfFuel.
Proof.
  unfold getitem, py_index. repeat case_decide; simpl; try done;
    by destruct (l !! _).
Qed.

Lemma build_huffman_tree_total frequencies :
  build_huffman_tree frequencies ≠ OutOfFuel.
Proof.
  unfold build_huffman_tree, initialize_forest.
  match goal with |- context [for_in ?xs ?body ?s] =>
    pose proof (for_in_fuel xs body s) as Hfor;
    destruct (for_in xs body s) as [forest| |] end; [|done|].
  - run.
    destruct (merge_loop_spec (length (forest ++ [Leaf (Z.max (sum frequencies) 1) (cp " ")]))
                (forest ++ [Leaf (Z.max (sum frequencies) 1) (cp " ")]))
      as (t & -> & _); [by intros [? ?]%app_eq_nil|lia|].
    run. done.
  - exfalso. apply Hfor; [|done]. intros i forest.
    pose proof (getitem_fuel frequencies i).
    destruct (getitem frequencies i); simpl; [by case_decide|done..].
Qed.

End build_huffman_tree.

(** ** The alphabet and the slots of the table *)

Section alphabet.

Lemma slot_lt c : in_alphabet c → (slot c < 27)%nat.
Proof. unfold_alphabet. intros [->|Hc]; case_decide; lia. Qed.

Lemma slot_inj c1 c2 :
  in_alphabet c1 → in_alphabet c2 → slot c1 = slot c2 → c1 = c2.
Proof. unfold_alphabet. intros [->|H1] [->|H2]; repeat case_decide; lia. Qed.

Lemma slot_letter (i : nat) : (i < 26)%nat → slot (letter i) = i.
Proof. unfold_alphabet. intros Hi. case_decide; lia. Qed.

Lemma letter_is_letter (i : nat) : (i < 26)%nat → is_letter (letter i).
Proof. unfold_alphabet. lia. Qed.

Lemma letter_inj (i j : nat) : letter i = letter j → i = j.
Proof. unfold_alphabet. lia. Qed.

Lemma letter_not_space (i : nat) : letter i ≠ cp " ".
Proof. unfold_alphabet. lia. Qed.

Lemma is_letter_letter c : is_letter c → ∃ i, (i < 26)%nat ∧ c = letter i.
Proof.
  unfold_alphabet. intros Hc. exists (N.to_nat (c - 65)). lia.
Qed.

End alphabet.

(** ** [build_encoding_table] *)

Section build_encoding_table.
Implicit Types (t : Node) (table : list (list N)) (kvs : list (N * list N)).

Lemma paths_symbols t : (paths t).*1 = symbols t.
Proof.
  unfold symbols. induction t as [w c|w l IHl r IHr]; simpl; [done|].
  rewrite !fmap_app, <- !list_fmap_compose.
  rewrite <- IHl, <- IHr. f_equal; apply list_fmap_ext; by intros ? [??].
Qed.

Lemma assoc_elem c kvs : c ∈ kvs.*1 → (c, assoc c kvs) ∈ kvs.
Proof.
  induction kvs as [|[k v] kvs IH]; simpl; [by intros ?%elem_of_nil|].
  intros Hc. case_decide as Hk.
  - subst. apply elem_of_cons. by left.
  - apply elem_of_cons. right. apply IH.
    apply elem_of_cons in Hc as [?|?]; [congruence|done].
Qed.

Lemma assoc_notin c kvs : c ∉ kvs.*1 → assoc c kvs = [].
Proof.
  induction kvs as [|[k v] kvs IH]; simpl; [done|].
  intros Hc. apply not_elem_of_cons in Hc as [? ?]. by rewrite decide_False, IH.
Qed.

Lemma assoc_NoDup c p kvs : NoDup kvs.*1 → (c, p) ∈ kvs → assoc c kvs = p.
Proof.
  induction kvs as [|[k v] kvs IH]; simpl; [by intros _ ?%elem_of_nil|].
  intros [Hk Hnd]%NoDup_cons [Heq|Hin]%elem_of_cons.
  - injection Heq as -> ->. by rewrite decide_True.
  - case_decide as Hkc; [|by apply IH]. subst k. destruct Hk.
    apply list_elem_of_fmap. by exists (c, p).
Qed.

Lemma fill_length table prefix kvs : length (fill table prefix kvs) = length table.
Proof.
  unfold fill. revert table. induction kvs as [|kv kvs IH]; intros table; simpl; [done|].
  by rewrite IH, length_insert.
Qed.

Lemma fill_app table prefix kvs1 kvs2 :
  fill table prefix (kvs1 ++ kvs2) = fill (fill table prefix kvs1) prefix kvs2.
Proof. unfold fill. by rewrite foldl_app. Qed.

Lemma fill_step table prefix b kvs :
  fill table prefix (prod_map id (cons b) <$> kvs) = fill table (prefix ++ [b]) kvs.
Proof.
  unfold fill. revert table. induction kvs as [|[c p] kvs IH]; intros table; simpl; [done|].
  by rewrite IH, <- (assoc_L (++)).
Qed.

Lemma fill_lookup_notin table prefix kvs (k : nat) :
  k ∉ slot <$> kvs.*1 → fill table prefix kvs !! k = table !! k.
Proof.
  unfold fill. revert table. induction kvs as [|[c p] kvs IH]; intros table; simpl; [done|].
  intros [Hk Hrest]%not_elem_of_cons. rewrite IH by done.
  by rewrite list_lookup_insert_ne.
Qed.

Lemma fill_lookup_in table prefix kvs c p :
  NoDup (slot <$> kvs.*1) → (c, p) ∈ kvs → (slot c < length table)%nat →
  fill table prefix kvs !! slot c = Some (prefix ++ p).
Proof.
  revert table. induction kvs as [|[c' p'] kvs IH]; intros table; simpl;
    [by intros _ ?%elem_of_nil|].
  intros [Hk Hnd]%NoDup_cons [Heq|Hin]%elem_of_cons Hlt.
  - injection Heq as -> ->.
    change (fill (<[slot c' := prefix ++ p']> table) prefix kvs !! slot c'
            = Some (prefix ++ p')).
    rewrite fill_lookup_notin by done. by rewrite list_lookup_insert_eq.
  - change (fill (<[slot c' := prefix ++ p']> table) prefix kvs !! slot c
            = Some (prefix ++ p)).
    apply IH; [done..|]. by rewrite length_insert.
Qed.

Lemma traverse_spec t : ∀ prefix table,
  length table = 27%nat → Forall in_alphabet (symbols t) →
  traverse t prefix table = Ok (fill table prefix (paths t)).
Proof.
  unfold symbols. induction t as [w c|w l IHl r IHr]; intros prefix table Hlen Hall.
  - simpl in *. rewrite Forall_singleton in Hall. pose proof (slot_lt c Hall) as Hlt.
    unfold fill. simpl. rewrite app_nil_r. unfold slot in *.
    case_decide.
    + change 26 with (Z.of_nat 26). by rewrite setitem_nat by lia.
    + assert (0 <= ord c - ord (cp "A")).
      { destruct Hall as [?|?]; [done|]. unfold_alphabet. lia. }
      rewrite <- (Z2Nat.id (ord c - ord (cp "A"))) at 1 by done.
      by rewrite setitem_nat by lia.
  - simpl in *. rewrite fmap_app in Hall. apply Forall_app in Hall as [Hl Hr].
    rewrite IHl by done. run. rewrite IHr by (by rewrite ?fill_length).
    by rewrite fill_app, !fill_step.
Qed.

(** The table of a tree whose symbols are distinct symbols of the
    alphabet: every slot holds the code of its symbol, and the slot of a
    symbol that the tree lacks holds the empty string. *)
Lemma build_encoding_table_spec t :
  NoDup (symbols t) → Forall in_alphabet (symbols t) →
  ∃ table, build_encoding_table t = Ok table
           ∧ length table = 27%nat
           ∧ ∀ c, in_alphabet c → table !! slot c = Some (code_of t c).
Proof.
  intros Hnd Hall. unfold build_encoding_table.
  rewrite traverse_spec by (done || by rewrite length_replicate).
  eexists. split; [done|]. split; [by rewrite fill_length, length_replicate|].
  intros c Hc. unfold code_of. destruct (decide (c ∈ symbols t)) as [Hin|Hout].
  - rewrite <- paths_symbols in Hin, Hnd.
    rewrite (fill_lookup_in _ _ _ c (assoc c (paths t))).
    + done.
    + rewrite paths_symbols. rewrite paths_symbols in Hnd.
      apply NoDup_fmap_2_strong; [|done].
      intros c1 c2 H1 H2. apply slot_inj; by eapply Forall_forall.
    + by apply assoc_elem.
    + rewrite length_replicate. by apply slot_lt.
  - rewrite fill_lookup_notin.
    + rewrite assoc_notin by (by rewrite paths_symbols).
      apply lookup_replicate_2. by apply slot_lt.
    + rewrite paths_symbols. intros (c' & Heq & Hin')%list_elem_of_fmap.
      apply slot_inj in Heq; [congruence|done|]. by eapply Forall_forall.
Qed.

End build_encoding_table.

(** ** [encode] and [decode] *)

Section codec.
Implicit Types (t root : Node) (table : list (list N)) (s bits : list N).

(** One turn of the loop of [encode]. *)
Lemma encode_step table (f : N → list N) c :
  length table = 27%nat → in_alphabet c → table !! slot c = Some (f c) →
  (if decide (c = cp " ") then getitem table 26
   else getitem table (ord c - ord (cp "A"))) = Ok (f c).
Proof.
  intros Hlen Hc Hf. unfold slot in Hf. case_decide.
  - change 26 with (Z.of_nat 26). by apply getitem_nat.
  - assert (0 <= ord c - ord (cp "A")).
    { destruct Hc as [?|?]; [done|]. unfold_alphabet. lia. }
    rewrite <- (Z2Nat.id (ord c - ord (cp "A"))) by done. by apply getitem_nat.
Qed.

Lemma encode_loop table (f : N → list N) s : ∀ encoded,
  length table = 27%nat →
  Forall (λ c, in_alphabet c ∧ table !! slot c = Some (f c)) s →
  for_in s
    (λ ch encoded,
       if decide (ch = cp " ") then
         code ← getitem table 26; mret (encoded ++ code)
       else
         code ← getitem table (ord ch - ord (cp "A")); mret (encoded ++ code))
    encoded
  = Ok (encoded ++ s ≫= f).
Proof.
  induction s as [|c s IH]; intros encoded Hlen Hall; cbn [for_in].
  - by rewrite app_nil_r.
  - apply Forall_cons in Hall as [[Hc Hf] Hall]. rewrite bind_cons.
    pose proof (encode_step table f c Hlen Hc Hf) as Hstep.
    case_decide; rewrite Hstep at 1; run; rewrite IH by done; by rewrite (assoc_L (++)).
Qed.

Lemma encode_spec table (f : N → list N) s :
  length table = 27%nat →
  Forall (λ c, in_alphabet c ∧ table !! slot c = Some (f c)) s →
  encode s table = Ok (s ≫= f).
Proof. intros Hlen Hall. unfold encode. by rewrite (encode_loop table f). Qed.

(** Reading a whole path from an internal node emits its symbol and
    brings the cursor back to the root. *)
Lemma decode_path root n : ∀ c p result rest,
  (c, p) ∈ paths n → get_symbol n = None →
  for_in (p ++ rest) (decode_step root) (result, n)
  = for_in rest (decode_step root) (result ++ [c], root).
Proof.
  induction n as [w c0|w l IHl r IHr]; intros c p result rest Hin Hsym; [done|].
  simpl in Hin. apply elem_of_app in Hin as [Hin|Hin];
    apply list_elem_of_fmap in Hin as ([c' p'] & [= -> ->] & Hin); simpl.
  - destruct l as [w' c''|w' l' r']; simpl.
    + apply list_elem_of_singleton in Hin as [= -> ->]. done.
    + by apply IHl.
  - destruct r as [w' c''|w' l' r']; simpl.
    + apply list_elem_of_singleton in Hin as [= -> ->]. done.
    + by apply IHr.
Qed.

Lemma decode_loop root s : ∀ result rest,
  get_symbol root = None → Forall (λ c, c ∈ symbols root) s →
  for_in ((s ≫= code_of root) ++ rest) (decode_step root) (result, root)
  = for_in rest (decode_step root) (result ++ s, root).
Proof.
  induction s as [|c s IH]; intros result rest Hroot Hall; simpl.
  - by rewrite app_nil_r.
  - apply Forall_cons in Hall as [Hc Hall].
    rewrite <- (assoc_L (++)).
    rewrite (decode_path root root c) by
      (done || (apply assoc_elem; by rewrite paths_symbols)).
    rewrite IH by done. by rewrite <- (assoc_L (++)).
Qed.

(** Decoding the codes of symbols of a tree with an internal root gives
    the symbols back. *)
Lemma decode_spec root s :
  get_symbol root = None → Forall (λ c, c ∈ symbols root) s →
  decode (s ≫= code_of root) root = Ok s.
Proof.
  intros Hroot Hall. unfold decode.
  rewrite <- (app_nil_r (s ≫= code_of root)).
  rewrite decode_loop by done. done.
Qed.

(** With an internal root no bit can fail: the loop of [decode] always
    comes to an end with some text and some cursor. *)
Lemma decode_loop_total root bits : ∀ result n,
  get_symbol root = None → get_symbol n = None →
  ∃ result' n', for_in bits (decode_step root) (result, n) = Ok (result', n')
                ∧ get_symbol n' = None.
Proof.
  induction bits as [|bit bits IH]; intros result n Hroot Hn; simpl.
  - by exists result, n.
  - destruct n as [w c|w l r]; [done|]. simpl.
    destruct (decide (bit = cp "0")); simpl.
    + destruct l as [w' c'|w' l' r']; simpl; by apply IH.
    + destruct r as [w' c'|w' l' r']; simpl; by apply IH.
Qed.

(** A leaf has no children: on a tree that is a single leaf, the first
    bit already fails. *)
Lemma decode_leaf w c bit bits :
  decode (bit :: bits) (Leaf w c) = Raise AttributeError.
Proof. unfold decode. simpl. by case_decide. Qed.

Lemma decode_empty root : decode [] root = Ok [].
Proof. done. Qed.

End codec.

(** ** [count_frequencies] *)

Section count_frequencies.
Implicit Types (s : list N) (frequencies : list Z).

Lemma occurrences_nil c : occurrences c [] = 0.
Proof. done. Qed.

Lemma occurrences_cons_eq c s : occurrences c (c :: s) = 1 + occurrences c s.
Proof. unfold occurrences. rewrite filter_cons_True by done. simpl. lia. Qed.

Lemma occurrences_cons_ne c x s : x ≠ c → occurrences c (x :: s) = occurrences c s.
Proof. intros Hne. unfold occurrences. by rewrite filter_cons_False. Qed.

Lemma occurrences_nonneg c s : 0 <= occurrences c s.
Proof. unfold occurrences. lia. Qed.

Lemma occurrences_pos c s : occurrences c s > 0 ↔ c ∈ s.
Proof.
  induction s as [|x s IH].
  - rewrite occurrences_nil. split; [lia|by intros ?%elem_of_nil].
  - rewrite elem_of_cons. destruct (decide (x = c)) as [->|Hne].
    + rewrite occurrences_cons_eq. pose proof (occurrences_nonneg c s).
      split; [by left|lia].
    + rewrite occurrences_cons_ne by done. rewrite IH.
      split; [by right|]. intros [?|?]; [congruence|done].
Qed.

Lemma count_frequencies_loop s : ∀ frequencies,
  length frequencies = 26%nat → Forall in_alphabet s →
  ∃ frequencies',
    for_in s
      (λ ch frequencies,
         if decide (ch ≠ cp " ") then
           v ← getitem frequencies (ord ch - ord (cp "A"));
           setitem frequencies (ord ch - ord (cp "A")) (v + 1)
         else mret frequencies)
      frequencies
    = Ok frequencies'
    ∧ length frequencies' = 26%nat
    ∧ ∀ i : nat, (i < 26)%nat →
        frequencies' !! i = (λ v, v + occurrences (letter i) s) <$> frequencies !! i.
Proof.
  induction s as [|c s IH]; intros frequencies Hlen Hall; cbn [for_in].
  - exists frequencies. split_and!; [done..|]. intros i Hi.
    destruct (frequencies !! i); simpl; [|done]. f_equal. rewrite occurrences_nil. lia.
  - apply Forall_cons in Hall as [Hc Hall]. case_decide as Hsp.
    + destruct Hc as [?|Hc]; [done|].
      destruct (is_letter_letter c Hc) as (k & Hk & ->).
      replace (ord (letter k) - ord (cp "A")) with (Z.of_nat k)
        by (unfold_alphabet; lia).
      destruct (lookup_lt_is_Some_2 frequencies k) as [v Hv]; [lia|].
      rewrite (getitem_nat _ _ _ Hv). run. rewrite setitem_nat by lia. run.
      destruct (IH (<[k := v + 1]> frequencies)) as (fr' & Hrun & Hlen' & Hfr');
        [by rewrite length_insert|done|].
      exists fr'. split_and!; [done..|]. intros i Hi. rewrite Hfr' by done.
      destruct (decide (i = k)) as [->|Hne].
      * rewrite list_lookup_insert_eq by lia. rewrite Hv. simpl. f_equal.
        rewrite occurrences_cons_eq. lia.
      * rewrite list_lookup_insert_ne by done.
        rewrite occurrences_cons_ne; [done|]. by intros ?%letter_inj.
    + subst c. run.
      destruct (IH frequencies) as (fr' & Hrun & Hlen' & Hfr'); [done..|].
      exists fr'. split_and!; [done..|]. intros i Hi. rewrite Hfr' by done.
      rewrite occurrences_cons_ne; [done|]. apply not_eq_sym, letter_not_space.
Qed.

(** On a string over the alphabet, [count_frequencies] counts the letters. *)
Lemma count_frequencies_spec s :
  Forall in_alphabet s →
  ∃ frequencies, count_frequencies s = Ok frequencies
                 ∧ length frequencies = 26%nat
                 ∧ ∀ i : nat, (i < 26)%nat →
                     frequencies !! i = Some (occurrences (letter i) s).
Proof.
  intros Hall. unfold count_frequencies.
  destruct (count_frequencies_loop s (replicate 26 0)) as (fr & Hrun & Hlen & Hfr);
    [by rewrite length_replicate|done|].
  exists fr. split_and!; [done..|]. intros i Hi. rewrite Hfr by done.
  by rewrite lookup_replicate_2.
Qed.

End count_frequencies.

(** ** The symbols of a built tree *)

Section built_tree.
Implicit Types (t : Node) (frequencies : list Z).

Lemma letter_leaves_symbols frequencies : ∀ i c,
  c ∈ (letter_leaves i frequencies ≫= leaves).*2 ↔
  ∃ j f, frequencies !! j = Some f ∧ f > 0 ∧ c = letter (i + j).
Proof.
  intros i c. rewrite list_elem_of_fmap. split.
  - intros ([w c'] & -> & Hin). apply list_elem_of_bind in Hin as (t & Hin & Ht).
    apply elem_of_letter_leaves in Ht as (j & f & Hj & Hf & ->). simpl in Hin.
    apply list_elem_of_singleton in Hin as [= -> ->]. by exists j, f.
  - intros (j & f & Hj & Hf & ->). exists (f, letter (i + j)). split; [done|].
    apply list_elem_of_bind. exists (Leaf f (letter (i + j))). split.
    + simpl. by apply list_elem_of_singleton.
    + apply elem_of_letter_leaves. by exists j, f.
Qed.

Lemma letter_leaves_NoDup frequencies : ∀ i,
  NoDup (letter_leaves i frequencies ≫= leaves).*2.
Proof.
  induction frequencies as [|f rest IH]; intros i; simpl; [constructor|].
  rewrite bind_app, fmap_app. case_decide; simpl; [|apply IH].
  constructor; [|apply IH].
  intros (j & f' & _ & _ & Heq)%letter_leaves_symbols.
  apply letter_inj in Heq. lia.
Qed.

(** The symbols of the tree built from 26 frequencies are distinct
    symbols of the alphabet: the space and the letters whose frequency is
    positive. *)
Lemma built_tree_symbols frequencies t :
  length frequencies = 26%nat → build_huffman_tree frequencies = Ok t →
  NoDup (symbols t)
  ∧ Forall in_alphabet (symbols t)
  ∧ ∀ c, c ∈ symbols t ↔
      c = cp " " ∨ ∃ j f, frequencies !! j = Some f ∧ f > 0 ∧ c = letter j.
Proof.
  intros Hlen Hbuild.
  destruct (build_huffman_tree_spec frequencies Hlen) as (t' & Hbuild' & Hperm & _).
  rewrite Hbuild in Hbuild'. injection Hbuild' as <-.
  assert (symbols t ≡ₚ (letter_leaves 0 frequencies ≫= leaves).*2 ++ [cp " "])
    as Hsyms.
  { unfold symbols. rewrite Hperm. by rewrite bind_app, fmap_app. }
  assert (∀ c, c ∈ symbols t ↔
      c = cp " " ∨ ∃ j f, frequencies !! j = Some f ∧ f > 0 ∧ c = letter j) as Hiff.
  { intros c. rewrite Hsyms, elem_of_app, letter_leaves_symbols.
    rewrite list_elem_of_singleton. simpl. tauto. }
  split_and!; [| |done].
  - rewrite Hsyms. apply NoDup_app. split_and!.
    + apply letter_leaves_NoDup.
    + intros c (j & f & _ & _ & ->)%letter_leaves_symbols ?%list_elem_of_singleton.
      by eapply letter_not_space.
    + apply NoDup_singleton.
  - apply Forall_forall. intros c [->|(j & f & Hj & _ & ->)]%Hiff; [by left|].
    right. apply letter_is_letter. apply lookup_lt_Some in Hj. lia.
Qed.

(** A path of a tree is a prefix of another path only if both are the
    path of the same leaf. *)
Lemma paths_prefix t : ∀ c1 p1 c2 p2,
  (c1, p1) ∈ paths t → (c2, p2) ∈ paths t → p1 `prefix_of` p2 → c1 = c2.
Proof.
  induction t as [w c|w l IHl r IHr]; intros c1 p1 c2 p2 H1 H2 Hpre; simpl in *.
  - apply list_elem_of_singleton in H1, H2. congruence.
  - apply elem_of_app in H1 as [H1|H1], H2 as [H2|H2];
      apply list_elem_of_fmap in H1 as ([c1' p1'] & [= -> ->] & H1);
      apply list_elem_of_fmap in H2 as ([c2' p2'] & [= -> ->] & H2);
      simpl in Hpre.
    + apply (IHl c1' p1' c2' p2'); [done..|]. by eapply prefix_cons_inv_2.
    + by apply prefix_cons_inv_1 in Hpre.
    + by apply prefix_cons_inv_1 in Hpre.
    + apply (IHr c1' p1' c2' p2'); [done..|]. by eapply prefix_cons_inv_2.
Qed.

End built_tree.

(** ** The round trip *)

Section round_trip.
Implicit Types (t root : Node) (s : list N).

Lemma letter_leaves_nil frequencies i :
  (∀ j f, frequencies !! j = Some f → ¬ f > 0) → letter_leaves i frequencies = [].
Proof.
  intros Hno. apply elem_of_nil_inv.
  intros t (j & f & Hj & Hf & _)%elem_of_letter_leaves. by apply (Hno j f).
Qed.

Lemma code_of_leaf w c0 c : code_of (Leaf w c0) c = [].
Proof. unfold code_of. simpl. by case_decide. Qed.

(** What the pipeline computes before decoding: the table of the tree of
    the text, and the codes of the text one after the other. *)
Lemma encode_pipeline s :
  Forall in_alphabet s →
  ∃ frequencies t table,
    count_frequencies s = Ok frequencies
    ∧ length frequencies = 26%nat
    ∧ (∀ i : nat, (i < 26)%nat → frequencies !! i = Some (occurrences (letter i) s))
    ∧ build_huffman_tree frequencies = Ok t
    ∧ build_encoding_table t = Ok table
    ∧ encode s table = Ok (s ≫= code_of t).
Proof.
  intros Hall.
  destruct (count_frequencies_spec s Hall) as (fr & Hcount & Hlen & Hfr).
  destruct (build_huffman_tree_spec fr Hlen) as (t & Hbuild & _).
  destruct (built_tree_symbols fr t Hlen Hbuild) as (Hnd & Halpha & _).
  destruct (build_encoding_table_spec t Hnd Halpha) as (table & Htable & Hlen' & Hcodes).
  exists fr, t, table. split_and!; [done..|].
  apply encode_spec; [done|]. eapply Forall_impl; [exact Hall|].
  intros c Hc. split; [done|]. by apply Hcodes.
Qed.

(** A text with at least one letter comes back unchanged. *)
Lemma round_trip_with_letter s :
  Forall in_alphabet s → (∃ c, c ∈ s ∧ is_letter c) → round_trip s = Ok s.
Proof.
  intros Hall (c0 & Hc0 & Hletter).
  destruct (encode_pipeline s Hall)
    as (fr & t & table & Hcount & Hlen & Hfr & Hbuild & Htable & Hencode).
  unfold round_trip. rewrite Hcount. run. rewrite Hbuild. run.
  rewrite Htable. run. rewrite Hencode. run.
  destruct (build_huffman_tree_spec fr Hlen) as (t' & Hbuild' & _ & _ & _ & Hinternal).
  rewrite Hbuild in Hbuild'. injection Hbuild' as <-.
  destruct (built_tree_symbols fr t Hlen Hbuild) as (_ & _ & Hsyms).
  assert (∀ c, c ∈ s → is_letter c → ∃ j f, fr !! j = Some f ∧ f > 0 ∧ c = letter j)
    as Hpos.
  { intros c Hc (j & Hj & ->)%is_letter_letter.
    exists j, (occurrences (letter j) s). split_and!; [by apply Hfr| |done].
    by apply occurrences_pos. }
  apply decode_spec.
  - apply Hinternal. intros Hnil.
    destruct (Hpos c0 Hc0 Hletter) as (j & f & Hj & Hf & ->).
    assert (Leaf f (letter (0 + j)) ∈ letter_leaves 0 fr) as Hin
      by (apply elem_of_letter_leaves; by exists j, f).
    rewrite Hnil in Hin. by apply elem_of_nil in Hin.
  - apply Forall_forall. intros c Hc. apply Hsyms.
    destruct (proj1 (Forall_forall _ _) Hall c Hc) as [->|Hl]; [by left|].
    right. by apply Hpos.
Qed.

(** A text of spaces only comes back empty: the tree is the single leaf
    of the space, whose code is the empty string. *)
Lemma round_trip_blank s :
  Forall (λ c, c = cp " ") s →
  ∃ frequencies t table,
    count_frequencies s = Ok frequencies
    ∧ frequencies = replicate 26 0
    ∧ build_huffman_tree frequencies = Ok t
    ∧ t = Leaf 1 (cp " ")
    ∧ build_encoding_table t = Ok table
    ∧ encode s table = Ok []
    ∧ round_trip s = Ok [].
Proof.
  intros Hblank.
  assert (Forall in_alphabet s) as Hall.
  { eapply Forall_impl; [exact Hblank|]. intros c ->. by left. }
  destruct (encode_pipeline s Hall)
    as (fr & t & table & Hcount & Hlen & Hfr & Hbuild & Htable & Hencode).
  assert (fr = replicate 26 0) as ->.
  { apply list_eq_same_length with 26%nat; [by rewrite length_replicate|done|].
    intros i x y Hi Hx Hy. rewrite Hfr in Hx by done.
    rewrite lookup_replicate_2 in Hy by done. injection Hx as <-. injection Hy as <-.
    destruct (decide (occurrences (letter i) s > 0)) as [Hpos|Hz].
    - apply occurrences_pos in Hpos.
      apply (proj1 (Forall_forall _ _) Hblank) in Hpos.
      by apply letter_not_space in Hpos.
    - pose proof (occurrences_nonneg (letter i) s). lia. }
  assert (build_huffman_tree (replicate 26 0) = Ok (Leaf 1 (cp " "))) as Hleaf
    by by vm_compute.
  rewrite Hbuild in Hleaf. injection Hleaf as ->.
  assert (s ≫= code_of (Leaf 1 (cp " ")) = []) as Hbits.
  { clear. induction s as [|c s IH]; [done|]. by rewrite bind_cons, code_of_leaf, IH. }
  rewrite Hbits in Hencode.
  exists (replicate 26 0), (Leaf 1 (cp " ")), table. split_and!; [done..|].
  unfold round_trip. rewrite Hcount. run. rewrite Hbuild. run.
  rewrite Htable. run. rewrite Hencode. run. done.
Qed.

End round_trip.

(** ** Bit-strings that end in the middle of a path *)

Section partial_paths.
Implicit Types (root n : Node) (bits : list N).

Lemma decode_paths root (ps : list (N * list N)) : ∀ result rest,
  get_symbol root = None → Forall (λ p, p ∈ paths root) ps →
  for_in ((ps ≫= snd) ++ rest) (decode_step root) (result, root)
  = for_in rest (decode_step root) (result ++ ps.*1, root).
Proof.
  induction ps as [|[c p] ps IH]; intros result rest Hroot Hall.
  - simpl. by rewrite app_nil_r.
  - apply Forall_cons in Hall as [Hp Hall].
    rewrite bind_cons, fmap_cons. simpl. rewrite <- (assoc_L (++)).
    rewrite (decode_path root root c) by done.
    rewrite IH by done. by rewrite <- (assoc_L (++)).
Qed.

(** Reading the beginning of a path, short of its end, moves the cursor
    and emits nothing. *)
Lemma decode_prefix root n : ∀ c q r result,
  (c, q ++ r) ∈ paths n → r ≠ [] →
  ∃ n', for_in q (decode_step root) (result, n) = Ok (result, n').
Proof.
  induction n as [w c0|w l IHl r0 IHr]; intros c q r result Hin Hr.
  - simpl in Hin. apply list_elem_of_singleton in Hin as [= -> Hnil].
    by apply app_eq_nil in Hnil as [_ ?].
  - destruct q as [|b q]; [by eexists|].
    simpl in Hin. apply elem_of_app in Hin as [Hin|Hin];
      apply list_elem_of_fmap in Hin as ([c' p'] & [= -> -> <-] & Hin); simpl.
    + destruct l as [w' c''|w' l' r']; simpl.
      * apply list_elem_of_singleton in Hin as [= -> Hnil].
        by apply app_eq_nil in Hnil as [_ ?].
      * by eapply IHl.
    + destruct r0 as [w' c''|w' l' r']; simpl.
      * apply list_elem_of_singleton in Hin as [= -> Hnil].
        by apply app_eq_nil in Hnil as [_ ?].
      * by eapply IHr.
Qed.

End partial_paths.

(** ** Weights *)

Section weights.

Lemma letter_leaves_weight frequencies : ∀ i,
  Forall (λ f, 0 <= f) frequencies →
  sum (letter_leaves i frequencies ≫= leaves).*1 = sum frequencies.
Proof.
  induction frequencies as [|f rest IH]; intros i Hall; [done|].
  apply Forall_cons in Hall as [Hf Hall]. simpl.
  rewrite bind_app, fmap_app, sum_app, IH by done.
  case_decide; simpl; unfold sum; simpl; lia.
Qed.

End weights.

(** ** Characters that [encode] does not know *)

Section encode_failure.
Implicit Types (table : list (list N)) (s : list N).

(** The characters for which the lookup of [encode] succeeds in a table
    of 27 entries: the space, and the code points 38 to 91, whose
    offset from "A" lies between -27 and 26. *)
Lemma encode_lookup table c :
  length table = 27%nat →
  (c = cp " " ∨ (38 <= c <= 91)%N →
   ∃ code, (if decide (c = cp " ") then getitem table 26
            else getitem table (ord c - ord (cp "A"))) = Ok code)
  ∧ (¬ (c = cp " " ∨ (38 <= c <= 91)%N) →
     (if decide (c = cp " ") then getitem table 26
      else getitem table (ord c - ord (cp "A"))) = Raise IndexError).
Proof.
  intros Hlen. split; intros Hc; case_decide.
  - apply getitem_succeeds. lia.
  - apply getitem_succeeds. unfold_alphabet. lia.
  - tauto.
  - apply getitem_fails. unfold_alphabet. lia.
Qed.

Lemma encode_outcome table s : ∀ encoded,
  length table = 27%nat →
  (Forall (λ c, c = cp " " ∨ (38 <= c <= 91)%N) s →
   ∃ out, for_in s
      (λ ch encoded,
         if decide (ch = cp " ") then
           code ← getitem table 26; mret (encoded ++ code)
         else
           code ← getitem table (ord ch - ord (cp "A")); mret (encoded ++ code))
      encoded = Ok out)
  ∧ (¬ Forall (λ c, c = cp " " ∨ (38 <= c <= 91)%N) s →
     for_in s
      (λ ch encoded,
         if decide (ch = cp " ") then
           code ← getitem table 26; mret (encoded ++ code)
         else
           code ← getitem table (ord ch - ord (cp "A")); mret (encoded ++ code))
      encoded = Raise IndexError).
Proof.
  induction s as [|c s IH]; intros encoded Hlen.
  - split; [by eexists|]. intros []. constructor.
  - destruct (encode_lookup table c Hlen) as [Hok Hfail]. cbn [for_in].
    destruct (decide (c = cp " " ∨ (38 <= c <= 91)%N)) as [Hc|Hc].
    + destruct (Hok Hc) as [code Hcode].
      assert ((if decide (c = cp " ") then
                 code ← getitem table 26; mret (encoded ++ code)
               else
                 code ← getitem table (ord c - ord (cp "A")); mret (encoded ++ code))
              = Ok (encoded ++ code)) as ->.
      { case_decide; by rewrite Hcode. }
      run. destruct (IH (encoded ++ code) Hlen) as [IHok IHfail]. split.
      * intros [_ Hall]%Forall_cons. by apply IHok.
      * intros Hnot. apply IHfail. contradict Hnot. by constructor.
    + specialize (Hfail Hc).
      assert ((if decide (c = cp " ") then
                 code ← getitem table 26; mret (encoded ++ code)
               else
                 code ← getitem table (ord c - ord (cp "A")); mret (encoded ++ code))
              = Raise IndexError) as ->.
      { case_decide; by rewrite Hfail. }
      split; [|done]. by intros [? _]%Forall_cons.
Qed.

(** A letter whose slot holds the empty code leaves no trace. *)
Lemma encode_skips table (i : nat) s : ∀ encoded,
  (i < 26)%nat → table !! i = Some [] →
  for_in (filter (λ c, c ≠ letter i) s)
    (λ ch encoded,
       if decide (ch = cp " ") then
         code ← getitem table 26; mret (encoded ++ code)
       else
         code ← getitem table (ord ch - ord (cp "A")); mret (encoded ++ code))
    encoded
  = for_in s
    (λ ch encoded,
       if decide (ch = cp " ") then
         code ← getitem table 26; mret (encoded ++ code)
       else
         code ← getitem table (ord ch - ord (cp "A")); mret (encoded ++ code))
    encoded.
Proof.
  intros encoded Hi Hempty. revert encoded.
  induction s as [|c s IH]; intros encoded; [done|].
  destruct (decide (c = letter i)) as [->|Hne].
  - rewrite filter_cons_False by (by intros []). cbn [for_in].
    rewrite decide_False by apply letter_not_space.
    replace (ord (letter i) - ord (cp "A")) with (Z.of_nat i)
      by (unfold_alphabet; lia).
    rewrite (getitem_nat _ _ _ Hempty) at 1. run. rewrite app_nil_r. apply IH.
  - rewrite filter_cons_True by done. cbn [for_in].
    match goal with |- ?m ≫= _ = _ => destruct m as [acc| |] end; [|done..].
    run. apply IH.
Qed.

End encode_failure.

(** ** Normalisation of ASCII text *)

Section normalization.

Lemma filter_uppercase_and_spaces_cons c s :
  filter_uppercase_and_spaces (c :: s)
  = filter (λ c, char_isalpha c || bool_decide (c = cp " ")) (char_upper c)
    ++ filter_uppercase_and_spaces s.
Proof.
  unfold filter_uppercase_and_spaces, str_upper. by rewrite bind_cons, filter_app.
Qed.

Lemma normalize_ascii_char c :
  (c < 128)%N →
  filter (λ c, char_isalpha c || bool_decide (c = cp " ")) (char_upper c)
  = ascii_upper <$> filter (λ c, ascii_is_alpha c ∨ c = cp " ") [c].
Proof.
  intros Hc. unfold char_upper, ascii_upper, ascii_is_alpha, char_isalpha.
  norm_cp.
  destruct (decide (97 <= c <= 122)%N) as [Hlow|Hlow].
  - rewrite filter_cons_True, (filter_cons_True _ c) by
      (try apply orb_True; try rewrite bool_decide_spec; lia).
    simpl. by rewrite decide_True.
  - rewrite !decide_False by lia.
    destruct (decide (65 <= c <= 90 ∨ c = 32)%N) as [Hup|Hup].
    + rewrite !filter_cons_True by
        (try apply orb_True; try rewrite !bool_decide_spec; lia).
      simpl. by rewrite decide_False.
    + rewrite !filter_cons_False; [done|lia|].
      rewrite orb_True, !bool_decide_spec. lia.
Qed.

Lemma normalize_ascii_alphabet s : Forall in_alphabet (normalize_ascii s).
Proof.
  unfold normalize_ascii. apply Forall_fmap, Forall_forall.
  intros c [Hc _]%list_elem_of_filter. simpl.
  unfold ascii_upper, ascii_is_alpha in *. unfold_alphabet.
  case_decide; lia.
Qed.

End normalization.

(** * The claims of the specification *)

(** ** C1 *)

(** Claim C1 (round-trip law). For every string [s] over the alphabet
    A-Z and space, the pipeline (count, build the tree and the table,
    encode, decode) ends without error. It gives [s] back when [s] holds
    at least one letter, and the empty string when [s] consists of
    spaces only: the law [decode(encode(s)) == s] holds for every text
    but the non-empty texts of spaces. *)
Theorem round_trip_law (s : list N) :
  Forall in_alphabet s →
  round_trip s = Ok (if decide (Forall (λ c, c = cp " ") s) then [] else s).
Proof.
  intros Hall. case_decide as Hblank.
  - by destruct (round_trip_blank s Hblank) as (? & ? & ? & _ & _ & _ & _ & _ & _ & ?).
  - apply round_trip_with_letter; [done|].
    apply not_Forall_Exists in Hblank; [|apply _].
    apply Exists_exists in Hblank as (c & Hc & Hne). exists c. split; [done|].
    by destruct (proj1 (Forall_forall _ _) Hall c Hc).
Qed.

Lemma round_trip_law_witness :
  Forall in_alphabet (lit " ") ∧ round_trip (lit " ") = Ok [].
Proof.
  assert (Forall in_alphabet (lit " ")) as Hall by (repeat constructor).
  split; [exact Hall|]. exact (round_trip_law (lit " ") Hall).
Defined.

(** ** C2 *)

(** Claim C2 (degenerate all-space input). For a string of [n] spaces,
    [count_frequencies] returns 26 zeros, [initialize_forest] yields the
    space leaf of weight 1 alone, and [build_huffman_tree] returns that
    leaf without a merge. The code of the space is then the empty
    string, [encode] produces no bit, and the round trip returns the
    empty string, whatever [n] is: the original text is not reproduced. *)
Theorem all_space_input (n : nat) :
  count_frequencies (replicate n (cp " ")) = Ok (replicate 26 0)
  ∧ initialize_forest (replicate 26 0) = Ok [Leaf 1 (cp " ")]
  ∧ build_huffman_tree (replicate 26 0) = Ok (Leaf 1 (cp " "))
  ∧ (build_encoding_table (Leaf 1 (cp " ")) ≫= encode (replicate n (cp " "))) = Ok []
  ∧ round_trip (replicate n (cp " ")) = Ok [].
Proof.
  destruct (round_trip_blank (replicate n (cp " ")))
    as (fr & t & table & Hcount & -> & Hbuild & -> & Htable & Hencode & Hround).
  { apply Forall_forall. by intros c [-> _]%elem_of_replicate. }
  split_and!; [done|by vm_compute|done| |done].
  rewrite Htable. run. done.
Qed.

(** ** C3 *)

(** Claim C3, as stated, fails: on the tree of "HELLO WORLD" the
    bit-string "1" ends in the middle of every path that begins with
    it, yet [decode] returns the empty text and no error. *)
Lemma decode_rejects_malformed_counterexample :
  ¬ (∀ root bits, ¬ well_formed_bits root bits → ∃ e, decode bits root = Raise e).
Proof.
  intros Hclaim. destruct (Hclaim hello_tree (lit "1")) as [e He]; [|done].
  intros (ps & Hall & Hbits). destruct ps as [|[c p] ps]; [done|].
  apply Forall_cons in Hall as [Hp _]. rewrite bind_cons in Hbits. simpl in Hbits.
  vm_compute in Hp.
  repeat (apply elem_of_cons in Hp as [[= -> ->]|Hp]; [by vm_compute in Hbits|]).
  by apply elem_of_nil in Hp.
Qed.

(** Claim C3, amended. On a tree whose root is internal, a bit-string
    made of whole paths followed by the beginning of a path, short of
    its end, decodes without error to the symbols of the whole paths:
    the unfinished path is dropped silently. *)
Theorem decode_drops_unfinished_path (root : Node) (ps : list (N * list N))
    (c : N) (q r : list N) :
  get_symbol root = None →
  Forall (λ p, p ∈ paths root) ps →
  (c, q ++ r) ∈ paths root → r ≠ [] →
  decode ((ps ≫= snd) ++ q) root = Ok ps.*1.
Proof.
  intros Hroot Hall Hin Hr. unfold decode.
  rewrite decode_paths by done.
  destruct (decode_prefix root root c q r (lit "" ++ ps.*1) Hin Hr) as [n' ->].
  done.
Qed.

Lemma decode_drops_unfinished_path_witness :
  decode (([(cp " ", lit "0")] ≫= snd) ++ lit "11") hello_tree
  = Ok [(cp " ", lit "0")].*1.
Proof.
  apply (decode_drops_unfinished_path hello_tree [(cp " ", lit "0")]
           (cp "L") (lit "11") (lit "0")).
  - reflexivity.
  - apply Forall_singleton. vm_compute. repeat constructor.
  - vm_compute. repeat constructor.
  - discriminate.
Defined.

(** ** C4 *)

(** Claim C4 (weight invariant). For every table of 26 non-negative
    frequencies, [build_huffman_tree] returns a tree whose root weight is
    the sum of the weights of its leaves, and that weight is the sum of
    the frequencies plus the larger of that sum and 1. *)
Theorem weight_invariant (frequencies : list Z) :
  length frequencies = 26%nat →
  Forall (λ f, 0 <= f) frequencies →
  ∃ t, build_huffman_tree frequencies = Ok t
       ∧ get_frequency t = sum (leaf_weights t)
       ∧ get_frequency t = sum frequencies + Z.max (sum frequencies) 1.
Proof.
  intros Hlen Hnonneg.
  destruct (build_huffman_tree_spec frequencies Hlen) as (t & Hbuild & Hperm & Hww & _).
  exists t. split; [done|]. pose proof (well_weighted_root t Hww) as Hroot.
  split; [done|]. rewrite Hroot. unfold leaf_weights.
  rewrite (sum_perm _ _ (fmap_Permutation fst _ _ Hperm)).
  rewrite bind_app, fmap_app, sum_app, letter_leaves_weight by done.
  simpl. unfold sum. simpl. lia.
Qed.

Lemma weight_invariant_witness :
  ∃ t, build_huffman_tree hello_freqs = Ok t
       ∧ get_frequency t = sum (leaf_weights t)
       ∧ get_frequency t = sum hello_freqs + Z.max (sum hello_freqs) 1.
Proof.
  apply (weight_invariant hello_freqs).
  - reflexivity.
  - unfold hello_freqs. repeat constructor; lia.
Defined.

(** ** C5 *)

(** Claim C5 (prefix-free law). For every table of 26 frequencies, the
    tree and its encoding table are built without error, and for all
    distinct symbols [a] and [b] present in the tree the code stored for
    [a] is not a prefix of the code stored for [b]; as [a] and [b] are
    arbitrary, neither code is a prefix of the other. *)
Theorem prefix_free_law (frequencies : list Z) :
  length frequencies = 26%nat →
  ∃ t table,
    build_huffman_tree frequencies = Ok t
    ∧ build_encoding_table t = Ok table
    ∧ ∀ a b code_a code_b,
        a ∈ symbols t → b ∈ symbols t → a ≠ b →
        table !! slot a = Some code_a → table !! slot b = Some code_b →
        ¬ code_a `prefix_of` code_b.
Proof.
  intros Hlen.
  destruct (build_huffman_tree_spec frequencies Hlen) as (t & Hbuild & _).
  destruct (built_tree_symbols frequencies t Hlen Hbuild) as (Hnd & Halpha & _).
  destruct (build_encoding_table_spec t Hnd Halpha) as (table & Htable & _ & Hcodes).
  exists t, table. split_and!; [done..|].
  intros a b code_a code_b Ha Hb Hne Hca Hcb Hpre.
  rewrite Hcodes in Hca by (by eapply Forall_forall).
  rewrite Hcodes in Hcb by (by eapply Forall_forall).
  injection Hca as <-. injection Hcb as <-.
  apply Hne. apply (paths_prefix t a (code_of t a) b (code_of t b)); [| |done].
  - apply assoc_elem. by rewrite paths_symbols.
  - apply assoc_elem. by rewrite paths_symbols.
Qed.

Lemma prefix_free_law_witness :
  ∃ t table,
    build_huffman_tree hello_freqs = Ok t
    ∧ build_encoding_table t = Ok table
    ∧ ∀ a b code_a code_b,
        a ∈ symbols t → b ∈ symbols t → a ≠ b →
        table !! slot a = Some code_a → table !! slot b = Some code_b →
        ¬ code_a `prefix_of` code_b.
Proof. apply (prefix_free_law hello_freqs). reflexivity. Defined.

(** ** C6 *)

(** Claim C6 (deterministic tie-break). On a forest that is not empty,
    [get_smallest] returns a node of least weight and takes it out of
    the forest; among the nodes of least weight it is the one at the
    lowest position, every node before it being strictly heavier. The
    build has no other source of choice: two encoding tables obtained
    from the same frequency table are equal. *)
Theorem get_smallest_first_minimum (forest : list Node) (frequencies : list Z) :
  forest ≠ [] →
  (∃ (k : nat) (x : Node),
      get_smallest forest = Ok (x, delete k forest)
      ∧ forest !! k = Some x
      ∧ (∀ j y, forest !! j = Some y → get_frequency x <= get_frequency y)
      ∧ (∀ j y, (j < k)%nat → forest !! j = Some y → get_frequency x < get_frequency y))
  ∧ (∀ table1 table2,
       build_huffman_tree frequencies ≫= build_encoding_table = Ok table1 →
       build_huffman_tree frequencies ≫= build_encoding_table = Ok table2 →
       table1 = table2).
Proof.
  intros Hne. split.
  - destruct (get_smallest_spec forest Hne) as (k & x & Hrun & Hx & Hmin).
    destruct Hmin as (Hk & x' & Hx' & Hle & Hlt).
    assert (x' = x) as -> by congruence.
    exists k, x. split_and!; [done..| |done].
    intros j y Hy. apply (Hle j y); [|done]. by eapply lookup_lt_Some.
  - intros table1 table2 H1 H2. congruence.
Qed.

Lemma get_smallest_first_minimum_witness :
  (∃ (k : nat) (x : Node),
      get_smallest hello_forest = Ok (x, delete k hello_forest)
      ∧ hello_forest !! k = Some x
      ∧ (∀ j y, hello_forest !! j = Some y → get_frequency x <= get_frequency y)
      ∧ (∀ j y, (j < k)%nat → hello_forest !! j = Some y
                → get_frequency x < get_frequency y))
  ∧ (∀ table1 table2,
       build_huffman_tree hello_freqs ≫= build_encoding_table = Ok table1 →
       build_huffman_tree hello_freqs ≫= build_encoding_table = Ok table2 →
       table1 = table2).
Proof. apply (get_smallest_first_minimum hello_forest hello_freqs). discriminate. Defined.

(** ** C7 *)

(** Claim C7, as stated, fails: "[" and "0" lie outside the alphabet,
    yet [encode] accepts them, reading the slot of the space for the
    one and, through a negative index, the slot of "K" for the other. *)
Lemma encode_rejects_counterexample :
  ¬ (∀ s table, length table = 27%nat → (∃ c, c ∈ s ∧ ¬ in_alphabet c) →
       ∃ e, encode s table = Raise e).
Proof.
  intros Hclaim. destruct (Hclaim (lit "[0") hello_table) as [e He]; [done| |done].
  exists (cp "["). split; [by constructor|].
  change (cp "[") with 91%N. unfold_alphabet. lia.
Qed.

(** Claim C7, amended. With a table of 27 entries, [encode] fails, with
    an [IndexError], exactly on the strings that hold a character other
    than the space whose code point is below 38 or above 91; on every
    other string it produces an output. It makes no check of its own:
    the failure is that of the list lookup, whose index
    [ord(ch) - ord("A")] is accepted from -27 to 26. *)
Theorem encode_fails_out_of_range (s : list N) (table : list (list N)) :
  length table = 27%nat →
  (Forall (λ c, c = cp " " ∨ (38 <= c <= 91)%N) s → ∃ out, encode s table = Ok out)
  ∧ (¬ Forall (λ c, c = cp " " ∨ (38 <= c <= 91)%N) s →
     encode s table = Raise IndexError).
Proof. intros Hlen. unfold encode. by apply encode_outcome. Qed.

Lemma encode_fails_out_of_range_witness :
  length hello_table = 27%nat ∧ encode (lit "a") hello_table = Raise IndexError.
Proof.
  split; [reflexivity|].
  apply (encode_fails_out_of_range (lit "a") hello_table); [reflexivity|].
  intros [Ha _]%Forall_cons. vm_compute in Ha. destruct Ha as [|[]]; done.
Defined.

(** ** C8 *)

(** Claim C8, as stated, fails twice: the space before "123" is kept,
    so that "Hello, World! 123" becomes "HELLO WORLD " with a space at
    its end; and a letter outside ASCII is kept as a letter, U+00E9
    becoming U+00C9, which is not one of A-Z. *)
Lemma normalization_counterexample :
  filter_uppercase_and_spaces (lit "Hello, World! 123") ≠ lit "HELLO WORLD"
  ∧ ¬ Forall in_alphabet (filter_uppercase_and_spaces [233%N]).
Proof.
  split; [by vm_compute|].
  intros [Hc _]%Forall_cons. unfold_alphabet. lia.
Qed.

(** Claim C8, amended. For every string of ASCII characters,
    [filter_uppercase_and_spaces] returns a string of letters A-Z and
    spaces only, namely the input without the characters that are
    neither letters nor spaces, in upper case; "Hello, World! 123"
    becomes "HELLO WORLD " (with the space that preceded "123"). *)
Theorem normalization_ascii (s : list N) :
  Forall (λ c, (c < 128)%N) s →
  Forall in_alphabet (filter_uppercase_and_spaces s)
  ∧ filter_uppercase_and_spaces s = normalize_ascii s
  ∧ filter_uppercase_and_spaces (lit "Hello, World! 123") = lit "HELLO WORLD ".
Proof.
  intros Hascii.
  assert (filter_uppercase_and_spaces s = normalize_ascii s) as Heq.
  { induction Hascii as [|c s Hc Hs IH]; [done|].
    rewrite filter_uppercase_and_spaces_cons, normalize_ascii_char, IH by done.
    unfold normalize_ascii. rewrite <- fmap_app. f_equal.
    change (c :: s) with ([c] ++ s). by rewrite filter_app. }
  split_and!; [|done|by vm_compute].
  rewrite Heq. apply normalize_ascii_alphabet.
Qed.

Lemma normalization_ascii_witness :
  Forall in_alphabet (filter_uppercase_and_spaces (lit "a-b"))
  ∧ filter_uppercase_and_spaces (lit "a-b") = normalize_ascii (lit "a-b")
  ∧ filter_uppercase_and_spaces (lit "Hello, World! 123") = lit "HELLO WORLD ".
Proof.
  apply (normalization_ascii (lit "a-b")).
  repeat constructor; vm_compute; reflexivity.
Defined.

(** ** C9 *)

(** Claim C9, as stated, fails: "HELLO WORLD" holds ten letters, so the
    weight of the space leaf is [max(10, 1) = 10]; no leaf of weight 11
    enters the forest. *)
Lemma hello_world_space_weight_counterexample :
  ¬ (∃ frequencies forest,
       count_frequencies hello_world = Ok frequencies
       ∧ initialize_forest frequencies = Ok forest
       ∧ Leaf (Z.max 11 1) (cp " ") ∈ forest).
Proof.
  intros (fr & forest & Hcount & Hforest & Hin).
  vm_compute in Hcount. injection Hcount as <-.
  vm_compute in Hforest. injection Hforest as <-.
  vm_compute in Hin.
  repeat (apply elem_of_cons in Hin as [[=]|Hin]).
  by apply elem_of_nil in Hin.
Qed.

(** Claim C9, amended. For "HELLO WORLD": normalisation leaves it
    unchanged; the frequencies are D=1, E=1, H=1, L=3, O=2, R=1, W=1 and
    0 for the other letters; their sum is 10 and the space leaf has
    weight [max(10, 1) = 10]; the tree and the table are those written
    out above; encoding then decoding gives "HELLO WORLD" back; the code
    of the space, "0", has one bit, and no symbol of the text has a
    shorter code. *)
Theorem hello_world_scenario :
  filter_uppercase_and_spaces hello_world = hello_world
  ∧ count_frequencies hello_world = Ok hello_freqs
  ∧ sum hello_freqs = 10
  ∧ initialize_forest hello_freqs = Ok hello_forest
  ∧ last hello_forest = Some (Leaf (Z.max 10 1) (cp " "))
  ∧ build_huffman_tree hello_freqs = Ok hello_tree
  ∧ build_encoding_table hello_tree = Ok hello_table
  ∧ (encode hello_world hello_table ≫= λ bits, decode bits hello_tree) = Ok hello_world
  ∧ round_trip hello_world = Ok hello_world
  ∧ hello_table !! slot (cp " ") = Some (lit "0")
  ∧ Forall (λ c, ∃ code, hello_table !! slot c = Some code
                         ∧ (length (lit "0") ≤ length code)%nat) hello_world.
Proof.
  split_and!; try (by vm_compute).
  unfold hello_world. repeat constructor; eexists; (split; [by vm_compute|simpl; lia]).
Qed.

(** ** C10 *)

(** Claim C10 (letters that the text lacks). For every table of 26
    frequencies and every letter whose frequency is zero, the encoding
    table of the built tree holds the empty string at the position of
    that letter, and [encode] adds no bit for its occurrences: a string
    and the same string without this letter have the same encoding. *)
Theorem unused_letter_empty_code (frequencies : list Z) (i : nat) :
  length frequencies = 26%nat →
  frequencies !! i = Some 0 →
  ∃ t table,
    build_huffman_tree frequencies = Ok t
    ∧ build_encoding_table t = Ok table
    ∧ table !! i = Some []
    ∧ encode [letter i] table = Ok []
    ∧ ∀ s, encode s table = encode (filter (λ c, c ≠ letter i) s) table.
Proof.
  intros Hlen Hzero.
  assert (i < 26)%nat as Hi by (apply lookup_lt_Some in Hzero; lia).
  destruct (build_huffman_tree_spec frequencies Hlen) as (t & Hbuild & _).
  destruct (built_tree_symbols frequencies t Hlen Hbuild) as (Hnd & Halpha & Hsyms).
  destruct (build_encoding_table_spec t Hnd Halpha) as (table & Htable & Hlen' & Hcodes).
  assert (table !! i = Some []) as Hempty.
  { rewrite <- (slot_letter i Hi) at 1.
    rewrite Hcodes by (right; by apply letter_is_letter).
    f_equal. apply assoc_notin. rewrite paths_symbols.
    intros [Hsp|(j & f & Hj & Hf & Heq)]%Hsyms.
    - by apply letter_not_space in Hsp.
    - apply letter_inj in Heq as <-. rewrite Hzero in Hj. injection Hj as <-. lia. }
  exists t, table. split_and!; [done..| |].
  - unfold encode. cbn [for_in]. rewrite decide_False by apply letter_not_space.
    replace (ord (letter i) - ord (cp "A")) with (Z.of_nat i)
      by (unfold_alphabet; lia).
    by rewrite (getitem_nat _ _ _ Hempty).
  - intros s. unfold encode. symmetry. by apply encode_skips.
Qed.

Lemma unused_letter_empty_code_witness :
  ∃ t table,
    build_huffman_tree hello_freqs = Ok t
    ∧ build_encoding_table t = Ok table
    ∧ table !! 0%nat = Some []
    ∧ encode [letter 0] table = Ok []
    ∧ ∀ s, encode s table = encode (filter (λ c, c ≠ letter 0) s) table.
Proof. apply (unused_letter_empty_code hello_freqs 0); reflexivity. Defined.

(** * Further properties of the code *)

(** ** [count_frequencies] on arbitrary strings *)

Section count_frequencies_more.
Implicit Types (s : list N) (frequencies : list Z).

Lemma sum_insert frequencies : ∀ (k : nat) v w,
  frequencies !! k = Some v → sum (<[k := w]> frequencies) = sum frequencies - v + w.
Proof.
  unfold sum. induction frequencies as [|f rest IH]; intros k v w Hk; [done|].
  destruct k as [|k]; simpl in *.
  - injection Hk as ->. lia.
  - rewrite (IH k v w Hk). lia.
Qed.

(** One turn of the loop on a character that is not a space: the
    counter that the index designates goes up by one. *)
Lemma count_step_in_range frequencies c :
  length frequencies = 26%nat → (39 <= c <= 90)%N →
  ∃ (k : nat) v,
    frequencies !! k = Some v
    ∧ k = Z.to_nat (ord (count_alias c) - ord (cp "A"))
    ∧ (v' ← getitem frequencies (ord c - ord (cp "A"));
       setitem frequencies (ord c - ord (cp "A")) (v' + 1))
      = Ok (<[k := v + 1]> frequencies).
Proof.
  intros Hlen Hc. unfold count_alias, getitem, setitem, py_index. rewrite Hlen.
  unfold_alphabet.
  destruct (decide (39 <= c <= 64)%N) as [Hneg|Hpos].
  - rewrite !decide_False by lia. rewrite !decide_True by lia. simpl.
    match goal with |- context [frequencies !! ?k] =>
      destruct (lookup_lt_is_Some_2 frequencies k) as [v Hv]; [lia|];
      exists k, v; rewrite Hv end.
    simpl. split_and!; [done|lia|done].
  - rewrite !decide_True by lia. simpl.
    match goal with |- context [frequencies !! ?k] =>
      destruct (lookup_lt_is_Some_2 frequencies k) as [v Hv]; [lia|];
      exists k, v; rewrite Hv end.
    simpl. split_and!; [done|lia|done].
Qed.

Lemma count_step_out_of_range frequencies c :
  length frequencies = 26%nat → ¬ (39 <= c <= 90)%N →
  (v' ← getitem frequencies (ord c - ord (cp "A"));
   setitem frequencies (ord c - ord (cp "A")) (v' + 1))
  = Raise IndexError.
Proof.
  intros Hlen Hc. rewrite getitem_fails; [done|]. rewrite Hlen. unfold_alphabet. lia.
Qed.

Lemma count_frequencies_outcome s : ∀ frequencies,
  length frequencies = 26%nat →
  (Forall (λ c, c = cp " " ∨ (39 <= c <= 90)%N) s →
   ∃ frequencies',
     for_in s
       (λ ch frequencies,
          if decide (ch ≠ cp " ") then
            v ← getitem frequencies (ord ch - ord (cp "A"));
            setitem frequencies (ord ch - ord (cp "A")) (v + 1)
          else mret frequencies)
       frequencies
     = Ok frequencies'
     ∧ length frequencies' = 26%nat
     ∧ sum frequencies'
       = sum frequencies + Z.of_nat (length (filter (λ c, c ≠ cp " ") s)))
  ∧ (¬ Forall (λ c, c = cp " " ∨ (39 <= c <= 90)%N) s →
     for_in s
       (λ ch frequencies,
          if decide (ch ≠ cp " ") then
            v ← getitem frequencies (ord ch - ord (cp "A"));
            setitem frequencies (ord ch - ord (cp "A")) (v + 1)
          else mret frequencies)
       frequencies
     = Raise IndexError).
Proof.
  induction s as [|c s IH]; intros frequencies Hlen.
  - split; [|intros []; constructor]. intros _. exists frequencies. simpl.
    split_and!; [done..|lia].
  - cbn [for_in]. destruct (decide (c = cp " ")) as [->|Hsp].
    + rewrite decide_False by (by intros []). run.
      rewrite filter_cons_False by (by intros []).
      destruct (IH frequencies Hlen) as [IHok IHfail]. split.
      * intros [_ Hall]%Forall_cons. by apply IHok.
      * intros Hnot. apply IHfail. contradict Hnot. constructor; [by left|done].
    + rewrite decide_True by done. rewrite filter_cons_True by done.
      destruct (decide (39 <= c <= 90)%N) as [Hc|Hc].
      * destruct (count_step_in_range frequencies c Hlen Hc) as (k & v & Hv & _ & ->).
        run. destruct (IH (<[k := v + 1]> frequencies)) as [IHok IHfail];
          [by rewrite length_insert|].
        split.
        -- intros [_ Hall]%Forall_cons.
           destruct (IHok Hall) as (fr' & Hrun & Hlen' & Hsum).
           exists fr'. split_and!; [done..|].
           rewrite Hsum, (sum_insert _ _ v) by done. simpl. lia.
        -- intros Hnot. apply IHfail. contradict Hnot. constructor; [by right|done].
      * rewrite count_step_out_of_range by done. split; [|done].
        intros [[?|?] _]%Forall_cons; done.
Qed.

Lemma count_alias_loop s : ∀ frequencies,
  length frequencies = 26%nat →
  for_in (count_alias <$> s)
    (λ ch frequencies,
       if decide (ch ≠ cp " ") then
         v ← getitem frequencies (ord ch - ord (cp "A"));
         setitem frequencies (ord ch - ord (cp "A")) (v + 1)
       else mret frequencies)
    frequencies
  = for_in s
    (λ ch frequencies,
       if decide (ch ≠ cp " ") then
         v ← getitem frequencies (ord ch - ord (cp "A"));
         setitem frequencies (ord ch - ord (cp "A")) (v + 1)
       else mret frequencies)
    frequencies.
Proof.
  induction s as [|c s IH]; intros frequencies Hlen; [done|].
  rewrite fmap_cons. cbn [for_in].
  destruct (decide (c = cp " ")) as [->|Hsp].
  - change (count_alias (cp " ")) with (cp " ").
    rewrite !decide_False by (by intros []). run. by apply IH.
  - assert (count_alias c ≠ cp " ") as Hsp'.
    { unfold count_alias. unfold_alphabet. case_decide; lia. }
    rewrite !decide_True by done.
    destruct (decide (39 <= c <= 90)%N) as [Hc|Hc].
    + assert (39 <= count_alias c <= 90)%N as Hc'
        by (unfold count_alias; case_decide; lia).
      destruct (count_step_in_range frequencies c Hlen Hc) as (k & v & Hv & Hk & ->).
      destruct (count_step_in_range frequencies (count_alias c) Hlen Hc')
        as (k' & v' & Hv' & Hk' & ->).
      assert (k' = k) as ->.
      { rewrite Hk, Hk'. unfold count_alias. repeat case_decide; lia. }
      assert (v' = v) as -> by congruence.
      run. apply IH. by rewrite length_insert.
    + assert (count_alias c = c) as ->
        by (unfold count_alias; case_decide; [lia|done]).
      by rewrite !count_step_out_of_range by done.
Qed.

End count_frequencies_more.

(** X1. On a string of letters A-Z and spaces, [count_frequencies]
    returns 26 counters; the counter of index [i] is the number of
    occurrences of the letter of index [i], and the counters add up to
    the number of characters that are not spaces. *)
Theorem count_frequencies_counts (s : list N) :
  Forall in_alphabet s →
  ∃ frequencies,
    count_frequencies s = Ok frequencies
    ∧ length frequencies = 26%nat
    ∧ (∀ i : nat, (i < 26)%nat → frequencies !! i = Some (occurrences (letter i) s))
    ∧ sum frequencies = Z.of_nat (length (filter (λ c, c ≠ cp " ") s)).
Proof.
  intros Hall.
  destruct (count_frequencies_spec s Hall) as (fr & Hcount & Hlen & Hfr).
  exists fr. split_and!; [done..|].
  destruct (count_frequencies_outcome s (replicate 26 0)) as [Hok _];
    [by rewrite length_replicate|].
  destruct Hok as (fr' & Hrun & _ & Hsum).
  { eapply Forall_impl; [exact Hall|]. intros c [->|Hc]; [by left|].
    right. unfold_alphabet. lia. }
  unfold count_frequencies in Hcount. rewrite Hcount in Hrun. injection Hrun as <-.
  rewrite Hsum. by vm_compute.
Qed.

Lemma count_frequencies_counts_witness :
  ∃ frequencies,
    count_frequencies (lit "AB A") = Ok frequencies
    ∧ length frequencies = 26%nat
    ∧ (∀ i : nat, (i < 26)%nat
         → frequencies !! i = Some (occurrences (letter i) (lit "AB A")))
    ∧ sum frequencies = Z.of_nat (length (filter (λ c, c ≠ cp " ") (lit "AB A"))).
Proof.
  apply (count_frequencies_counts (lit "AB A")).
  cbv -[in_alphabet]. repeat (apply List.Forall_cons; [unfold_alphabet; lia|]).
  apply List.Forall_nil.
Defined.

(** X2. [count_frequencies] checks nothing itself. It raises
    [IndexError] exactly when the string holds a character other than
    the space whose code point is below 39 or above 90; otherwise it
    returns 26 counters. A character from "'" to "@" is not refused: it
    is counted as the letter 26 code points above it. *)
Theorem count_frequencies_unchecked (s : list N) :
  (Forall (λ c, c = cp " " ∨ (39 <= c <= 90)%N) s →
   ∃ frequencies, count_frequencies s = Ok frequencies ∧ length frequencies = 26%nat)
  ∧ (¬ Forall (λ c, c = cp " " ∨ (39 <= c <= 90)%N) s →
     count_frequencies s = Raise IndexError)
  ∧ count_frequencies s = count_frequencies (count_alias <$> s).
Proof.
  destruct (count_frequencies_outcome s (replicate 26 0)) as [Hok Hfail];
    [by rewrite length_replicate|].
  split_and!.
  - intros Hall. destruct (Hok Hall) as (fr & Hrun & Hlen & _). by exists fr.
  - done.
  - unfold count_frequencies. symmetry. apply count_alias_loop.
    by rewrite length_replicate.
Qed.

Lemma count_frequencies_unchecked_witness :
  count_frequencies (lit "a") = Raise IndexError
  ∧ count_frequencies (lit "0") = count_frequencies (lit "J").
Proof.
  split.
  - apply (proj1 (proj2 (count_frequencies_unchecked (lit "a")))).
    intros [Ha _]%Forall_cons. vm_compute in Ha. destruct Ha as [|[]]; done.
  - apply (proj2 (proj2 (count_frequencies_unchecked (lit "0")))).
Defined.

(** ** [initialize_forest] and [get_smallest] at the edges *)

Section forest_more.
Implicit Types (forest : list Node) (frequencies : list Z).

(** The scan of the first counters of a table that has more of them. *)
Lemma initialize_forest_scan_more post : ∀ pre more acc,
  for_in (seqZ (Z.of_nat (length pre)) (Z.of_nat (length post)))
    (λ i forest,
       f ← getitem (pre ++ post ++ more) i;
       if decide (f > 0) then mret (forest ++ [Leaf f (chr (i + ord (cp "A")))])
       else mret forest)
    acc
  = Ok (acc ++ letter_leaves (length pre) post).
Proof.
  induction post as [|f post IH]; intros pre more acc.
  - simpl. by rewrite app_nil_r.
  - rewrite seqZ_cons by (simpl; lia). cbn [for_in].
    rewrite (getitem_nat _ _ f) by (by rewrite <- app_comm_cons, list_lookup_middle).
    replace (Z.pred (Z.of_nat (length (f :: post)))) with (Z.of_nat (length post))
      by (simpl; lia).
    replace (Z.succ (Z.of_nat (length pre))) with (Z.of_nat (length (pre ++ [f])))
      by (rewrite length_app; simpl; lia).
    specialize (IH (pre ++ [f]) more). rewrite <- (assoc_L (++)) in IH. simpl in IH.
    simpl. case_decide; simpl; rewrite IH.
    + rewrite length_app. simpl. rewrite Nat.add_1_r. by rewrite <- (assoc_L (++)).
    + rewrite length_app. simpl. by rewrite Nat.add_1_r.
Qed.

Lemma initialize_forest_scan_more_eq frequencies pre post more acc i n :
  frequencies = pre ++ post ++ more →
  i = Z.of_nat (length pre) → n = Z.of_nat (length post) →
  for_in (seqZ i n)
    (λ i forest,
       f ← getitem frequencies i;
       if decide (f > 0) then mret (forest ++ [Leaf f (chr (i + ord (cp "A")))])
       else mret forest)
    acc
  = Ok (acc ++ letter_leaves (length pre) post).
Proof. intros -> -> ->. apply initialize_forest_scan_more. Qed.

Lemma letter_leaves_length frequencies : ∀ i,
  (length (letter_leaves i frequencies) ≤ length frequencies)%nat.
Proof.
  induction frequencies as [|f rest IH]; intros i; simpl; [lia|].
  specialize (IH (S i)). case_decide; simpl; lia.
Qed.

Lemma letter_leaves_positive frequencies i :
  Forall (λ n, 0 < get_frequency n ∧ get_left n = None ∧ get_right n = None)
    (letter_leaves i frequencies).
Proof.
  apply Forall_forall. intros n (j & f & _ & Hf & ->)%elem_of_letter_leaves.
  simpl. split_and!; [lia|done..].
Qed.

End forest_more.

(** X3. [initialize_forest] reads the counters 0 to 25 and adds all the
    counters up. With fewer than 26 counters it raises [IndexError], and
    so does [build_huffman_tree]; with 26 or more, the forest holds one
    leaf for every positive counter among the first 26, in alphabetical
    order, followed by the space leaf, whose weight is the larger of 1
    and the sum of all the counters, those past the 26th included. *)
Theorem initialize_forest_table_length (frequencies : list Z) :
  ((length frequencies < 26)%nat →
   initialize_forest frequencies = Raise IndexError
   ∧ build_huffman_tree frequencies = Raise IndexError)
  ∧ ((26 ≤ length frequencies)%nat →
     initialize_forest frequencies
     = Ok (letter_leaves 0 (take 26 frequencies)
           ++ [Leaf (Z.max (sum frequencies) 1) (cp " ")])).
Proof.
  split.
  - intros Hshort.
    assert (initialize_forest frequencies = Raise IndexError) as Hinit.
    { unfold initialize_forest, range.
      replace (26 - 0) with (Z.of_nat (length frequencies)
                             + (26 - Z.of_nat (length frequencies))) by lia.
      rewrite seqZ_app by lia. rewrite for_in_app.
      rewrite (initialize_forest_scan_eq frequencies [] frequencies [] 0
                 (Z.of_nat (length frequencies))) by done.
      run. rewrite seqZ_cons by lia. cbn [for_in].
      rewrite getitem_fails by lia. done. }
    split; [done|]. unfold build_huffman_tree. by rewrite Hinit.
  - intros Hlong. unfold initialize_forest, range.
    rewrite (initialize_forest_scan_more_eq frequencies [] (take 26 frequencies)
               (drop 26 frequencies) [] 0 (26 - 0)).
    + done.
    + simpl. by rewrite take_drop.
    + done.
    + by rewrite length_take_le.
Qed.

Lemma initialize_forest_table_length_witness :
  initialize_forest [3; 1] = Raise IndexError
  ∧ build_huffman_tree [3; 1] = Raise IndexError.
Proof.
  apply (proj1 (initialize_forest_table_length [3; 1])). simpl. lia.
Defined.

(** X4. For a table of 26 counters the forest has from 1 to 27 nodes;
    each is a leaf of positive weight; the last one is the space leaf;
    and the letter of index [i] has a leaf, of weight [f], exactly when
    its counter [f] is positive. *)
Theorem initialize_forest_content (frequencies : list Z) :
  length frequencies = 26%nat →
  ∃ forest,
    initialize_forest frequencies = Ok forest
    ∧ (1 ≤ length forest ≤ 27)%nat
    ∧ Forall (λ n, 0 < get_frequency n ∧ get_left n = None ∧ get_right n = None) forest
    ∧ last forest = Some (Leaf (Z.max (sum frequencies) 1) (cp " "))
    ∧ ∀ (i : nat) f, (i < 26)%nat →
        Leaf f (letter i) ∈ forest ↔ frequencies !! i = Some f ∧ f > 0.
Proof.
  intros Hlen. rewrite initialize_forest_spec by done. eexists. split; [done|].
  split; [|split; [|split]].
  - rewrite length_app. simpl. pose proof (letter_leaves_length frequencies 0). lia.
  - apply Forall_app. split; [apply letter_leaves_positive|].
    apply Forall_singleton. simpl. split_and!; [lia|done..].
  - by rewrite last_snoc.
  - intros i f Hi. rewrite elem_of_app, elem_of_letter_leaves, list_elem_of_singleton.
    split.
    + intros [(j & f' & Hj & Hf & [= -> Heq])|[= _ Heq]].
      * simpl in Heq. apply letter_inj in Heq as ->. done.
      * by apply letter_not_space in Heq.
    + intros [Hf Hpos]. left. by exists i, f.
Qed.

Lemma initialize_forest_content_witness :
  ∃ forest,
    initialize_forest hello_freqs = Ok forest
    ∧ (1 ≤ length forest ≤ 27)%nat
    ∧ Forall (λ n, 0 < get_frequency n ∧ get_left n = None ∧ get_right n = None) forest
    ∧ last forest = Some (Leaf (Z.max (sum hello_freqs) 1) (cp " "))
    ∧ ∀ (i : nat) f, (i < 26)%nat →
        Leaf f (letter i) ∈ forest ↔ hello_freqs !! i = Some f ∧ f > 0.
Proof. apply (initialize_forest_content hello_freqs). reflexivity. Defined.

(** X5. [get_smallest] raises [IndexError] on an empty forest. On any
    other forest it takes exactly one node out: the forest that is left
    is one node shorter, keeps the other nodes in their order, and
    together with the node returned it is a rearrangement of the
    original. *)
Theorem get_smallest_takes_one_out (forest : list Node) :
  (forest = [] → get_smallest forest = Raise IndexError)
  ∧ (forest ≠ [] →
     ∃ x rest,
       get_smallest forest = Ok (x, rest)
       ∧ x ∈ forest
       ∧ S (length rest) = length forest
       ∧ rest `sublist_of` forest
       ∧ forest ≡ₚ x :: rest).
Proof.
  split; [by intros ->|]. intros Hne.
  destruct (get_smallest_spec forest Hne) as (k & x & Hrun & Hx & _).
  exists x, (delete k forest). split_and!; [done| | | |].
  - by eapply list_elem_of_lookup_2.
  - rewrite length_delete by eauto. apply lookup_lt_Some in Hx. lia.
  - apply sublist_delete.
  - by apply delete_Permutation.
Qed.

Lemma get_smallest_takes_one_out_witness :
  ∃ x rest,
    get_smallest hello_forest = Ok (x, rest)
    ∧ x ∈ hello_forest
    ∧ S (length rest) = length hello_forest
    ∧ rest `sublist_of` hello_forest
    ∧ hello_forest ≡ₚ x :: rest.
Proof.
  apply (proj2 (get_smallest_takes_one_out hello_forest)). discriminate.
Defined.

(** X6. The tree built from 26 counters has one leaf for the space and
    one for every letter whose counter is positive, and no other leaf;
    no symbol occurs twice; the leaf of a letter weighs its counter;
    every leaf has a positive weight and every internal node weighs the
    sum of its two children. *)
Theorem built_tree_leaves (frequencies : list Z) :
  length frequencies = 26%nat →
  ∃ t,
    build_huffman_tree frequencies = Ok t
    ∧ NoDup (symbols t)
    ∧ (∀ c, c ∈ symbols t ↔
         c = cp " " ∨ ∃ (i : nat) f, frequencies !! i = Some f ∧ f > 0 ∧ c = letter i)
    ∧ (∀ (i : nat) f, frequencies !! i = Some f → f > 0 → (f, letter i) ∈ leaves t)
    ∧ (Z.max (sum frequencies) 1, cp " ") ∈ leaves t
    ∧ Forall (λ w, 0 < w) (leaf_weights t)
    ∧ well_weighted t.
Proof.
  intros Hlen.
  destruct (build_huffman_tree_spec frequencies Hlen) as (t & Hbuild & Hperm & Hww & _).
  destruct (built_tree_symbols frequencies t Hlen Hbuild) as (Hnd & _ & Hsyms).
  exists t. split_and!; [done..| | | |done].
  - intros i f Hi Hf. rewrite Hperm, bind_app, elem_of_app. left.
    apply list_elem_of_bind. exists (Leaf f (letter i)). split.
    + simpl. by apply list_elem_of_singleton.
    + apply elem_of_letter_leaves. by exists i, f.
  - rewrite Hperm, bind_app, elem_of_app. right. simpl. by apply list_elem_of_singleton.
  - unfold leaf_weights. rewrite Hperm. apply Forall_fmap, Forall_forall.
    intros [w c]. rewrite bind_app, elem_of_app. simpl.
    intros [(n & Hin & Hn)%list_elem_of_bind|[= -> _]%list_elem_of_singleton]; [|lia].
    apply elem_of_letter_leaves in Hn as (j & f & _ & Hf & ->). simpl in Hin.
    apply list_elem_of_singleton in Hin as [= -> _]. lia.
Qed.

Lemma built_tree_leaves_witness :
  ∃ t,
    build_huffman_tree hello_freqs = Ok t
    ∧ NoDup (symbols t)
    ∧ (∀ c, c ∈ symbols t ↔
         c = cp " " ∨ ∃ (i : nat) f, hello_freqs !! i = Some f ∧ f > 0 ∧ c = letter i)
    ∧ (∀ (i : nat) f, hello_freqs !! i = Some f → f > 0 → (f, letter i) ∈ leaves t)
    ∧ (Z.max (sum hello_freqs) 1, cp " ") ∈ leaves t
    ∧ Forall (λ w, 0 < w) (leaf_weights t)
    ∧ well_weighted t.
Proof. apply (built_tree_leaves hello_freqs). reflexivity. Defined.

(** ** The place of the space in the tree *)

Section space_leaf.
Implicit Types (forest others : list Node) (sp : Node).

Lemma sum_positive (l : list Z) : Forall (λ z, 0 < z) l → l ≠ [] → 0 < sum l.
Proof.
  unfold sum. induction l as [|z l IH]; [done|].
  intros [Hz Hl]%Forall_cons _. simpl. destruct l as [|z' l']; [simpl; lia|].
  specialize (IH Hl ltac:(done)). simpl in *. lia.
Qed.

(** Of two or more positive weights, each is less than their sum. *)
Lemma weight_below_sum others o :
  Forall (λ n, 0 < get_frequency n) others → (2 ≤ length others)%nat → o ∈ others →
  get_frequency o < sum (get_frequency <$> others).
Proof.
  intros Hpos Hlen (rest & Hperm)%elem_of_Permutation.
  rewrite Hperm in Hpos. apply Forall_cons in Hpos as [_ Hrest].
  rewrite (sum_perm _ _ (fmap_Permutation get_frequency _ _ Hperm)).
  rewrite fmap_cons. unfold sum at 1. simpl. fold (sum (get_frequency <$> rest)).
  assert (0 < sum (get_frequency <$> rest)); [|lia].
  apply sum_positive.
  - by apply Forall_fmap.
  - intros Hnil%fmap_nil_inv. subst rest.
    apply Permutation_length in Hperm. simpl in Hperm. lia.
Qed.

(** The least node of the forest is not the node [sp] as long as some
    other node is lighter than [sp]. *)
Lemma get_smallest_spares forest sp others k x :
  forest ≡ₚ sp :: others →
  (∃ o, o ∈ others ∧ get_frequency o < get_frequency sp) →
  forest !! k = Some x → first_min forest (length forest) k →
  ∃ others', others ≡ₚ x :: others' ∧ delete k forest ≡ₚ sp :: others'.
Proof.
  intros Hperm (o & Ho & Hlt) Hx (_ & x' & Hx' & Hmin & _).
  assert (x' = x) as -> by congruence.
  assert (o ∈ forest) as Hof by (rewrite Hperm; apply elem_of_cons; by right).
  apply list_elem_of_lookup_1 in Hof as [j Hj].
  pose proof (Hmin j o (lookup_lt_Some _ _ _ Hj) Hj) as Hxo.
  assert (x ∈ others) as Hxin.
  { assert (x ∈ forest) as Hxf by (by eapply list_elem_of_lookup_2).
    rewrite Hperm in Hxf. apply elem_of_cons in Hxf as [->|?]; [lia|done]. }
  apply elem_of_Permutation in Hxin as [others' Hothers].
  exists others'. split; [done|].
  apply (Permutation_cons_inv (a := x)).
  rewrite <- (delete_Permutation forest k x Hx), Hperm, Hothers.
  apply Permutation_swap.
Qed.

(** When the other nodes of the forest add up to the weight of [sp],
    the loop merges [sp] last: it is a child of the root. *)
Lemma merge_loop_space fuel : ∀ forest sp others,
  forest ≡ₚ sp :: others → others ≠ [] →
  Forall (λ n, 0 < get_frequency n) others →
  sum (get_frequency <$> others) = get_frequency sp →
  (length forest ≤ S fuel)%nat →
  ∃ w l r, merge_loop fuel forest = Ok [Internal w l r] ∧ (l = sp ∨ r = sp).
Proof.
  induction fuel as [|fuel IH]; intros forest sp others Hperm Hne Hpos Hsum Hlen.
  { apply Permutation_length in Hperm. destruct others; [done|]. simpl in *. lia. }
  pose proof (Permutation_length Hperm) as Hlen'. simpl in Hlen'.
  assert (forest ≠ []) as Hfne by (intros ->; simpl in Hlen'; lia).
  rewrite merge_loop_step by (destruct others; [done|simpl in *; lia]).
  destruct (get_smallest_spec forest Hfne) as (k & x & -> & Hx & Hmin). run.
  assert (length (delete k forest) = length others) as Hlen1.
  { rewrite length_delete by eauto. lia. }
  destruct (get_smallest_spec (delete k forest)) as (k2 & y & -> & Hy & Hmin2).
  { intros Hnil. rewrite Hnil in Hlen1. destruct others; [done|simpl in Hlen1; lia]. }
  run. simpl.
  destruct (decide (2 ≤ length others)%nat) as [Hmany|Hone].
  - destruct (get_smallest_spares forest sp others k x) as (others1 & Ho1 & Hrest1);
      [done| |done|done|].
    { destruct others as [|o ?]; [done|]. exists o. split; [by left|].
      rewrite <- Hsum. apply weight_below_sum; [done..|by left]. }
    assert (Forall (λ n, 0 < get_frequency n) others1
            ∧ 0 < get_frequency x
            ∧ sum (get_frequency <$> others)
              = get_frequency x + sum (get_frequency <$> others1)) as (Hpos1 & Hxpos & Hsum1).
    { rewrite Ho1 in Hpos. apply Forall_cons in Hpos as [? ?]. split_and!; [done..|].
      by rewrite (sum_perm _ _ (fmap_Permutation get_frequency _ _ Ho1)). }
    assert (others1 ≠ []) as Hne1.
    { intros ->. apply Permutation_length in Ho1. simpl in Ho1. lia. }
    destruct (get_smallest_spares (delete k forest) sp others1 k2 y)
      as (others2 & Ho2 & Hrest2); [done| |done|done|].
    { destruct others1 as [|o ?]; [done|]. exists o. split; [by left|].
      assert (o ∈ others) as Hin by (rewrite Ho1; apply elem_of_cons; right; by left).
      pose proof (weight_below_sum others o Hpos Hmany Hin). lia. }
    assert (Forall (λ n, 0 < get_frequency n) others2
            ∧ 0 < get_frequency y
            ∧ sum (get_frequency <$> others1)
              = get_frequency y + sum (get_frequency <$> others2)) as (Hpos2 & Hypos & Hsum2).
    { rewrite Ho2 in Hpos1. apply Forall_cons in Hpos1 as [? ?]. split_and!; [done..|].
      by rewrite (sum_perm _ _ (fmap_Permutation get_frequency _ _ Ho2)). }
    apply (IH _ sp (Internal (get_frequency x + get_frequency y) x y :: others2)).
    + rewrite Hrest2. rewrite <- Permutation_cons_append. apply Permutation_swap.
    + done.
    + apply Forall_cons. split; [simpl; lia|done].
    + rewrite fmap_cons. unfold sum at 1. simpl.
      fold (sum (get_frequency <$> others2)). lia.
    + rewrite length_app, length_delete by eauto. simpl. lia.
  - destruct others as [|o [|??]]; [done| |simpl in Hone; lia]. simpl in *.
    assert (delete k2 (delete k forest) = []) as Hnil.
    { apply length_zero_iff_nil. rewrite length_delete by eauto. lia. }
    rewrite Hnil. simpl. rewrite merge_loop_done by (simpl; lia).
    eexists _, x, y. split; [done|].
    assert (forest ≡ₚ [x; y]) as Hxy.
    { rewrite (delete_Permutation forest k x Hx). f_equiv.
      rewrite (delete_Permutation (delete k forest) k2 y Hy). by rewrite Hnil. }
    assert (sp ∈ forest) as Hsp by (rewrite Hperm; by left).
    rewrite Hxy in Hsp. apply elem_of_cons in Hsp as [->|Hsp]; [by left|].
    apply list_elem_of_singleton in Hsp as ->. by right.
Qed.

Lemma letter_leaves_frequencies frequencies : ∀ i,
  get_frequency <$> letter_leaves i frequencies
  = (letter_leaves i frequencies ≫= leaves).*1.
Proof.
  induction frequencies as [|f rest IH]; intros i; [done|]. simpl.
  rewrite bind_app, !fmap_app, IH. by case_decide.
Qed.

Lemma paths_nonempty w l r c p : (c, p) ∈ paths (Internal w l r) → p ≠ [].
Proof.
  simpl. intros [Hin|Hin]%elem_of_app;
    by apply list_elem_of_fmap in Hin as ([??] & [= _ ->] & _).
Qed.

End space_leaf.

(** X7. For every table of 26 counters, none negative and one at least
    positive, the space leaf is a child of the root of the built tree:
    its code has exactly one bit, and no symbol of the tree has a
    shorter code. *)
Theorem space_code_one_bit (frequencies : list Z) :
  length frequencies = 26%nat →
  Forall (λ f, 0 <= f) frequencies →
  Exists (λ f, 0 < f) frequencies →
  ∃ w l r table code,
    build_huffman_tree frequencies = Ok (Internal w l r)
    ∧ (l = Leaf (sum frequencies) (cp " ") ∨ r = Leaf (sum frequencies) (cp " "))
    ∧ build_encoding_table (Internal w l r) = Ok table
    ∧ table !! 26%nat = Some code
    ∧ length code = 1%nat
    ∧ ∀ c code', c ∈ symbols (Internal w l r) → table !! slot c = Some code' →
        (length code ≤ length code')%nat.
Proof.
  intros Hlen Hnonneg Hsome.
  assert (letter_leaves 0 frequencies ≠ []) as Hne.
  { apply Exists_exists in Hsome as (f & Hin & Hf).
    apply list_elem_of_lookup_1 in Hin as [j Hj]. intros Hnil.
    assert (Leaf f (letter (0 + j)) ∈ letter_leaves 0 frequencies) as Hleaf
      by (apply elem_of_letter_leaves; exists j, f; split_and!; [done|lia|done]).
    rewrite Hnil in Hleaf. by apply elem_of_nil in Hleaf. }
  assert (sum (get_frequency <$> letter_leaves 0 frequencies) = sum frequencies) as Hsum
    by (rewrite letter_leaves_frequencies; by apply letter_leaves_weight).
  assert (0 < sum frequencies) as Hpos.
  { rewrite <- Hsum. apply sum_positive.
    - apply Forall_fmap. eapply Forall_impl; [apply letter_leaves_positive|].
      by intros n [? _].
    - by intros ?%fmap_nil_inv. }
  assert (Z.max (sum frequencies) 1 = sum frequencies) as Hmax by lia.
  set (sp := Leaf (sum frequencies) (cp " ")).
  set (forest := letter_leaves 0 frequencies ++ [sp]).
  destruct (merge_loop_space (length forest) forest sp (letter_leaves 0 frequencies))
    as (w & l & r & Hloop & Hchild).
  { unfold forest. by rewrite <- Permutation_cons_append. }
  { done. }
  { eapply Forall_impl; [apply letter_leaves_positive|]. by intros n [? _]. }
  { done. }
  { lia. }
  assert (build_huffman_tree frequencies = Ok (Internal w l r)) as Hbuild.
  { unfold build_huffman_tree. rewrite initialize_forest_spec by done. run.
    rewrite Hmax. fold sp. fold forest. rewrite Hloop. run. done. }
  destruct (built_tree_symbols frequencies _ Hlen Hbuild) as (Hnd & Halpha & _).
  destruct (build_encoding_table_spec _ Hnd Halpha) as (table & Htable & _ & Hcodes).
  assert (∃ b, (cp " ", [b]) ∈ paths (Internal w l r)) as [b Hb].
  { simpl. destruct Hchild as [->| ->].
    - exists (cp "0"). apply elem_of_app. left. simpl. by left.
    - exists (cp "1"). apply elem_of_app. right. simpl. by left. }
  exists w, l, r, table, [b]. split_and!; [done..| | |].
  - change 26%nat with (slot (cp " ")). rewrite Hcodes by (by left). f_equal.
    apply assoc_NoDup; [by rewrite paths_symbols|done].
  - done.
  - intros c code' Hc Hcode'.
    rewrite Hcodes in Hcode' by (by eapply Forall_forall). injection Hcode' as <-.
    assert ((c, code_of (Internal w l r) c) ∈ paths (Internal w l r)) as Hin
      by (apply assoc_elem; by rewrite paths_symbols).
    apply paths_nonempty in Hin. destruct (code_of _ c); [done|simpl; lia].
Qed.

Lemma space_code_one_bit_witness :
  ∃ w l r table code,
    build_huffman_tree hello_freqs = Ok (Internal w l r)
    ∧ (l = Leaf (sum hello_freqs) (cp " ") ∨ r = Leaf (sum hello_freqs) (cp " "))
    ∧ build_encoding_table (Internal w l r) = Ok table
    ∧ table !! 26%nat = Some code
    ∧ length code = 1%nat
    ∧ ∀ c code', c ∈ symbols (Internal w l r) → table !! slot c = Some code' →
        (length code ≤ length code')%nat.
Proof.
  apply (space_code_one_bit hello_freqs).
  - reflexivity.
  - unfold hello_freqs. repeat (apply List.Forall_cons; [lia|]). apply List.Forall_nil.
  - unfold hello_freqs. do 3 apply List.Exists_cons_tl. apply List.Exists_cons_hd. lia.
Defined.

(** ** The codec on any tree *)

Section codec_more.
Implicit Types (t root : Node) (table : list (list N)) (s bits : list N).

Lemma bind_filter_nil (f : N → list N) (P : N → Prop) `{!∀ c, Decision (P c)} s :
  (∀ c, ¬ P c → f c = []) → s ≫= f = filter P s ≫= f.
Proof.
  intros Hf. induction s as [|c s IH]; [done|]. rewrite bind_cons.
  destruct (decide (P c)) as [Hc|Hc].
  - rewrite filter_cons_True by done. by rewrite bind_cons, IH.
  - rewrite filter_cons_False by done. by rewrite Hf, IH.
Qed.

(** The output of [encode] grows at its end only. *)
Lemma encode_accumulates table s : ∀ encoded,
  for_in s
    (λ ch encoded,
       if decide (ch = cp " ") then
         code ← getitem table 26; mret (encoded ++ code)
       else
         code ← getitem table (ord ch - ord (cp "A")); mret (encoded ++ code))
    encoded
  = out ← for_in s
      (λ ch encoded,
         if decide (ch = cp " ") then
           code ← getitem table 26; mret (encoded ++ code)
         else
           code ← getitem table (ord ch - ord (cp "A")); mret (encoded ++ code))
      [];
    mret (encoded ++ out).
Proof.
  induction s as [|c s IH]; intros encoded.
  - simpl. by rewrite app_nil_r.
  - cbn [for_in].
    assert (∀ acc,
      (if decide (c = cp " ") then
         code ← getitem table 26; mret (acc ++ code)
       else
         code ← getitem table (ord c - ord (cp "A")); mret (acc ++ code))
      = code ← (if decide (c = cp " ") then getitem table 26
                else getitem table (ord c - ord (cp "A")));
        mret (acc ++ code)) as Hstep by (intros acc; by case_decide).
    rewrite !Hstep.
    destruct (if decide (c = cp " ") then getitem table 26
              else getitem table (ord c - ord (cp "A"))) as [code| |]; [|done..].
    run. rewrite (IH (encoded ++ code)), (IH ([] ++ code)). simpl.
    destruct (for_in s _ []) as [out| |]; [|done..]. run.
    by rewrite (assoc_L (++)).
Qed.

Lemma decode_step_eq root bit result n :
  decode_step root bit (result, n)
  = child ← deref (if decide (bit = cp "0") then get_left n else get_right n);
    match get_symbol child with
    | Some symbol => mret (result ++ [symbol], root)
    | None => mret (result, child)
    end.
Proof. done. Qed.

(** The text of [decode] grows at its end only. *)
Lemma decode_accumulates root bits : ∀ result n,
  for_in bits (decode_step root) (result, n)
  = st ← for_in bits (decode_step root) ([], n); mret (result ++ st.1, st.2).
Proof.
  induction bits as [|bit bits IH]; intros result n.
  - simpl. by rewrite app_nil_r.
  - cbn [for_in]. rewrite !decode_step_eq.
    destruct (deref (if decide (bit = cp "0") then get_left n else get_right n))
      as [child| |]; [|done..].
    run. destruct (get_symbol child) as [c|]; run.
    + rewrite (IH (result ++ [c])), (IH ([] ++ [c])).
      destruct (for_in bits _ ([], root)) as [[out n']| |]; [|done..].
      simpl. by rewrite <- (assoc_L (++)).
    + apply IH.
Qed.

End codec_more.

(** X8. The codec round-trips on any prefix tree, built by
    [build_huffman_tree] or not: if the root is internal and the leaves
    hold distinct symbols of the alphabet, then every text made of
    symbols of the tree is encoded without error with the table of the
    tree, and decoding the result with the tree gives the text back. *)
Theorem codec_round_trip (t : Node) (s : list N) :
  get_symbol t = None →
  NoDup (symbols t) →
  Forall in_alphabet (symbols t) →
  Forall (λ c, c ∈ symbols t) s →
  ∃ table bits,
    build_encoding_table t = Ok table
    ∧ encode s table = Ok bits
    ∧ decode bits t = Ok s.
Proof.
  intros Hroot Hnd Halpha Hs.
  destruct (build_encoding_table_spec t Hnd Halpha) as (table & Htable & Hlen & Hcodes).
  exists table, (s ≫= code_of t). split_and!; [done| |by apply decode_spec].
  apply encode_spec; [done|]. eapply Forall_impl; [exact Hs|].
  intros c Hc. assert (in_alphabet c) by (by eapply Forall_forall). auto.
Qed.

Lemma codec_round_trip_witness :
  ∃ table bits,
    build_encoding_table (Internal 3 (Leaf 1 (cp "B")) (Leaf 2 (cp "A"))) = Ok table
    ∧ encode (lit "ABBA") table = Ok bits
    ∧ decode bits (Internal 3 (Leaf 1 (cp "B")) (Leaf 2 (cp "A"))) = Ok (lit "ABBA").
Proof.
  apply (codec_round_trip (Internal 3 (Leaf 1 (cp "B")) (Leaf 2 (cp "A"))) (lit "ABBA")).
  - reflexivity.
  - apply (bool_decide_unpack _); by vm_compute.
  - cbv -[in_alphabet]. repeat (apply List.Forall_cons; [unfold_alphabet; lia|]).
    apply List.Forall_nil.
  - apply (bool_decide_unpack _); by vm_compute.
Defined.

(** X9. A tree serves other texts than the one it was built from, but
    knows only the letters of that one. With the tree and the table of a
    text [s0] that holds a letter, any text [s] over the alphabet is
    encoded and decoded without error, and what comes back is [s]
    without its letters that [s0] lacks: these vanish silently, the
    rest is unchanged. *)
Theorem foreign_text_round_trip (s0 s : list N) :
  Forall in_alphabet s0 → (∃ c, c ∈ s0 ∧ is_letter c) → Forall in_alphabet s →
  ∃ frequencies t table bits,
    count_frequencies s0 = Ok frequencies
    ∧ build_huffman_tree frequencies = Ok t
    ∧ build_encoding_table t = Ok table
    ∧ encode s table = Ok bits
    ∧ decode bits t = Ok (filter (λ c, c = cp " " ∨ c ∈ s0) s).
Proof.
  intros Hall0 (c0 & Hc0 & Hletter0) Hall.
  destruct (encode_pipeline s0 Hall0)
    as (fr & t & table & Hcount & Hlen & Hfr & Hbuild & Htable & _).
  destruct (build_huffman_tree_spec fr Hlen) as (t' & Hbuild' & _ & _ & _ & Hinternal).
  rewrite Hbuild in Hbuild'. injection Hbuild' as <-.
  destruct (built_tree_symbols fr t Hlen Hbuild) as (Hnd & Halpha & Hsyms).
  destruct (build_encoding_table_spec t Hnd Halpha) as (table' & Htable' & Hlen' & Hcodes).
  rewrite Htable in Htable'. injection Htable' as <-.
  assert (∀ c, in_alphabet c → c ∈ symbols t ↔ c = cp " " ∨ c ∈ s0) as Hin.
  { intros c Hc. rewrite Hsyms. split; (intros [->|H]; [by left|]).
    - right. destruct H as (j & f & Hj & Hf & ->).
      rewrite Hfr in Hj by (apply lookup_lt_Some in Hj; lia).
      injection Hj as <-. by apply occurrences_pos.
    - destruct Hc as [->|Hc]; [by left|right].
      apply is_letter_letter in Hc as (j & Hj & ->).
      exists j, (occurrences (letter j) s0). split_and!; [by apply Hfr| |done].
      by apply occurrences_pos. }
  assert (get_symbol t = None) as Hroot.
  { apply Hinternal. intros Hnil.
    pose proof (proj2 (Hin c0 (or_intror Hletter0)) (or_intror Hc0)) as Hc0t.
    apply Hsyms in Hc0t as [Hsp|(j & f & Hj & Hf & ->)].
    - revert Hletter0. rewrite Hsp. unfold_alphabet. lia.
    - assert (Leaf f (letter (0 + j)) ∈ letter_leaves 0 fr) as Hleaf
        by (apply elem_of_letter_leaves; by exists j, f).
      rewrite Hnil in Hleaf. by apply elem_of_nil in Hleaf. }
  exists fr, t, table, (s ≫= code_of t). split_and!; [done..| |].
  - apply encode_spec; [done|]. eapply Forall_impl; [exact Hall|]. auto.
  - rewrite (bind_filter_nil (code_of t) (λ c, c = cp " " ∨ c ∈ s0)).
    + apply decode_spec; [done|]. apply Forall_forall.
      intros c [Hc Hcs]%list_elem_of_filter. apply Hin; [|done].
      by apply (proj1 (Forall_forall _ _) Hall).
    + intros c Hc. destruct (decide (c ∈ symbols t)) as [Hct|Hct].
      * destruct (decide (in_alphabet c)) as [Ha|Ha].
        -- by apply Hin in Hct.
        -- destruct Ha. by apply (proj1 (Forall_forall _ _) Halpha).
      * apply assoc_notin. by rewrite paths_symbols.
Qed.

Lemma foreign_text_round_trip_witness :
  ∃ frequencies t table bits,
    count_frequencies (lit "AB") = Ok frequencies
    ∧ build_huffman_tree frequencies = Ok t
    ∧ build_encoding_table t = Ok table
    ∧ encode (lit "A CAB") table = Ok bits
    ∧ decode bits t = Ok (filter (λ c, c = cp " " ∨ c ∈ lit "AB") (lit "A CAB")).
Proof.
  apply (foreign_text_round_trip (lit "AB") (lit "A CAB")).
  - cbv -[in_alphabet]. repeat (apply List.Forall_cons; [unfold_alphabet; lia|]).
    apply List.Forall_nil.
  - exists (cp "A"). split; [by left|]. unfold_alphabet. lia.
  - cbv -[in_alphabet]. repeat (apply List.Forall_cons; [unfold_alphabet; lia|]).
    apply List.Forall_nil.
Defined.

(** X10. [encode] works character by character: with any table, the
    encoding of two strings put end to end is the encoding of the first
    followed by the encoding of the second, and fails as soon as one of
    them fails. *)
Theorem encode_app (s1 s2 : list N) (table : list (list N)) :
  encode (s1 ++ s2) table
  = bits1 ← encode s1 table; bits2 ← encode s2 table; mret (bits1 ++ bits2).
Proof.
  unfold encode. rewrite for_in_app.
  destruct (for_in s1 _ (lit "")) as [bits1| |]; [|done..]. run.
  apply encode_accumulates.
Qed.

(** X11. [decode] works path by path: on a tree with an internal root,
    after a bit-string made of whole paths the cursor is back at the
    root, so that what follows is decoded on its own and its text is
    appended. *)
Theorem decode_app (root : Node) (bits1 bits2 : list N) :
  get_symbol root = None →
  well_formed_bits root bits1 →
  decode (bits1 ++ bits2) root
  = text1 ← decode bits1 root; text2 ← decode bits2 root; mret (text1 ++ text2).
Proof.
  intros Hroot (ps & Hps & ->). unfold decode.
  rewrite decode_paths by done.
  rewrite <- (app_nil_r (ps ≫= snd)). rewrite decode_paths by done.
  cbn [for_in]. run. rewrite decode_accumulates. norm_cp.
  destruct (for_in bits2 _ ([], root)) as [[text2 n]| |]; done.
Qed.

Lemma decode_app_witness :
  decode (lit "0110" ++ lit "11") hello_tree
  = text1 ← decode (lit "0110") hello_tree;
    text2 ← decode (lit "11") hello_tree; mret (text1 ++ text2).
Proof.
  apply (decode_app hello_tree (lit "0110") (lit "11")).
  - reflexivity.
  - exists [(cp " ", lit "0"); (cp "L", lit "110")]. split; [|reflexivity].
    repeat (apply List.Forall_cons; [apply (bool_decide_unpack _); by vm_compute|]).
    apply List.Forall_nil.
Defined.

(** ** What [decode] accepts and what it returns *)

Section decode_more.
Implicit Types (root n : Node) (bits : list N).

Lemma for_in_fmap {B C S} (f : B → C) (xs : list B) (body : C → S → outcome S) s :
  for_in (f <$> xs) body s = for_in xs (λ x, body (f x)) s.
Proof.
  revert s. induction xs as [|x xs IH]; intros s; [done|].
  rewrite fmap_cons. cbn [for_in]. destruct (body (f x) s); simpl; auto.
Qed.

Lemma for_in_ext {B S} (xs : list B) (body1 body2 : B → S → outcome S) s :
  (∀ x s, body1 x s = body2 x s) → for_in xs body1 s = for_in xs body2 s.
Proof.
  intros Hext. revert s. induction xs as [|x xs IH]; intros s; [done|].
  cbn [for_in]. rewrite Hext. destruct (body2 x s); simpl; auto.
Qed.

Lemma decode_step_read_bit root bit st :
  decode_step root (read_bit bit) st = decode_step root bit st.
Proof.
  destruct st as [result n]. rewrite !decode_step_eq. unfold read_bit.
  destruct (decide (bit = cp "0")) as [->|Hbit]; [done|].
  by rewrite decide_False by done.
Qed.

(** The symbols below the cursor are symbols of the tree, and every
    symbol emitted costs one bit at least. *)
Lemma decode_loop_output root bits : ∀ result n result' n',
  (∀ c, c ∈ symbols n → c ∈ symbols root) →
  for_in bits (decode_step root) (result, n) = Ok (result', n') →
  ∃ out, result' = result ++ out
         ∧ (length out ≤ length bits)%nat
         ∧ Forall (λ c, c ∈ symbols root) out.
Proof.
  induction bits as [|bit bits IH]; intros result n result' n' Hsub Hrun.
  - injection Hrun as <- <-. exists []. by rewrite app_nil_r.
  - cbn [for_in] in Hrun. rewrite decode_step_eq in Hrun.
    destruct n as [w c|w l r]; [by case_decide|].
    assert (∀ child,
      (∀ c, c ∈ symbols child → c ∈ symbols (Internal w l r)) →
      (match get_symbol child with
       | Some symbol => mret (result ++ [symbol], root)
       | None => mret (result, child)
       end) ≫= for_in bits (decode_step root) = Ok (result', n') →
      ∃ out, result' = result ++ out
             ∧ (length out ≤ length (bit :: bits))%nat
             ∧ Forall (λ c, c ∈ symbols root) out) as Hchild.
    { intros child Hin Hrun'. destruct child as [w' c'|w' l' r']; simpl in Hrun'.
      - destruct (IH _ _ _ _ (λ c Hc, Hc) Hrun') as (out & -> & Hlen & Hall).
        exists (c' :: out). rewrite <- (assoc_L (++)). split_and!; [done|simpl; lia|].
        apply Forall_cons. split; [|done]. apply Hsub, Hin. by left.
      - destruct (IH _ _ _ _ (λ c Hc, Hsub c (Hin c Hc)) Hrun')
          as (out & -> & Hlen & Hall).
        exists out. split_and!; [done|simpl; lia|done]. }
    unfold symbols in *. simpl in *. case_decide; simpl in Hrun.
    + apply (Hchild l); [|done]. intros c Hc. rewrite fmap_app, elem_of_app. by left.
    + apply (Hchild r); [|done]. intros c Hc. rewrite fmap_app, elem_of_app. by right.
Qed.

End decode_more.

(** X12. [decode] fails in one way only. On a tree whose root is
    internal every string is decoded, whatever its characters. On a
    tree that is a single leaf the empty string gives the empty text,
    and any other string raises [AttributeError] at its first bit, the
    leaf having no child to go to. *)
Theorem decode_failure (root : Node) (bits : list N) :
  (get_symbol root = None → ∃ text, decode bits root = Ok text)
  ∧ (get_symbol root ≠ None →
     decode bits root = if decide (bits = []) then Ok [] else Raise AttributeError).
Proof.
  split.
  - intros Hroot. unfold decode.
    destruct (decode_loop_total root bits (lit "") root Hroot Hroot)
      as (text & n' & -> & _).
    by exists text.
  - intros Hroot. destruct root as [w c|w l r]; [|done].
    destruct bits as [|bit bits]; [done|]. by rewrite decode_leaf.
Qed.

Lemma decode_failure_witness :
  (∃ text, decode (lit "01x0") hello_tree = Ok text)
  ∧ decode (lit "0") (Leaf 1 (cp " ")) = Raise AttributeError.
Proof.
  split.
  - apply (proj1 (decode_failure hello_tree (lit "01x0"))). reflexivity.
  - apply (proj2 (decode_failure (Leaf 1 (cp " ")) (lit "0"))). discriminate.
Defined.

(** X13. [decode] does not look at what a character is beyond
    comparing it with "0": every other character is read as "1". *)
Theorem decode_reads_other_as_one (root : Node) (bits : list N) :
  decode bits root = decode (read_bit <$> bits) root
  ∧ Forall is_bit (read_bit <$> bits).
Proof.
  split.
  - unfold decode. rewrite for_in_fmap.
    rewrite (for_in_ext bits (λ x, decode_step root (read_bit x)) (decode_step root));
      [done|].
    intros bit st. apply decode_step_read_bit.
  - apply Forall_fmap, Forall_forall. intros b _. unfold read_bit, is_bit. simpl.
    case_decide; [by left|by right].
Qed.

(** X14. The text that [decode] returns has no more symbols than the
    string has bits, and holds symbols of the tree only. *)
Theorem decode_output (root : Node) (bits text : list N) :
  decode bits root = Ok text →
  (length text ≤ length bits)%nat ∧ Forall (λ c, c ∈ symbols root) text.
Proof.
  unfold decode. intros Hrun.
  destruct (for_in bits (decode_step root) (lit "", root)) as [[result n]| |] eqn:Hloop;
    [|done..].
  injection Hrun as ->.
  destruct (decode_loop_output root bits _ _ _ _ (λ c Hc, Hc) Hloop)
    as (out & -> & Hlen & Hall).
  done.
Qed.

Lemma decode_output_witness :
  (length (lit " L") ≤ length (lit "0110"))%nat
  ∧ Forall (λ c, c ∈ symbols hello_tree) (lit " L").
Proof. apply (decode_output hello_tree (lit "0110") (lit " L")). reflexivity. Defined.

(** ** The contents of the encoding table *)

Section table_more.
Implicit Types (t : Node) (table : list (list N)).

Lemma paths_bits t c p : (c, p) ∈ paths t → Forall is_bit p.
Proof.
  revert c p. induction t as [w c0|w l IHl r IHr]; intros c p Hin; simpl in Hin.
  - apply list_elem_of_singleton in Hin as [= -> ->]. constructor.
  - apply elem_of_app in Hin as [Hin|Hin];
      apply list_elem_of_fmap in Hin as ([c' p'] & [= -> ->] & Hin); simpl;
      (apply Forall_cons; split; [|by eauto]).
    + by left.
    + by right.
Qed.

(** A path is shorter than the number of leaves. *)
Lemma paths_length t c p : (c, p) ∈ paths t → (length p < length (leaves t))%nat.
Proof.
  revert c p. induction t as [w c0|w l IHl r IHr]; intros c p Hin; simpl in Hin.
  - apply list_elem_of_singleton in Hin as [= -> ->]. simpl. lia.
  - assert (0 < length (leaves l) ∧ 0 < length (leaves r))%nat as [Hl Hr].
    { split; [destruct l|destruct r]; simpl; rewrite ?length_app; try lia.
      - assert (0 < length (leaves l1))%nat; [|lia].
        clear. induction l1; simpl; rewrite ?length_app; lia.
      - assert (0 < length (leaves r1))%nat; [|lia].
        clear. induction r1; simpl; rewrite ?length_app; lia. }
    simpl. rewrite length_app.
    apply elem_of_app in Hin as [Hin|Hin];
      apply list_elem_of_fmap in Hin as ([c' p'] & [= -> ->] & Hin); simpl.
    + specialize (IHl _ _ Hin). lia.
    + specialize (IHr _ _ Hin). lia.
Qed.

Lemma fill_Forall (Q : list N → Prop) table prefix kvs :
  Forall Q table → Forall (λ kv, Q (prefix ++ kv.2)) kvs →
  Forall Q (fill table prefix kvs).
Proof.
  unfold fill. revert table. induction kvs as [|kv kvs IH]; intros table Htable Hkvs;
    [done|].
  apply Forall_cons in Hkvs as [Hkv Hkvs]. simpl. apply IH; [|done].
  by apply Forall_insert.
Qed.

Lemma getitem_elem {B} (l : list B) i x : getitem l i = Ok x → x ∈ l.
Proof.
  unfold getitem. intros (k & _ & Hk)%bind_Ok.
  destruct (l !! k) as [y|] eqn:Hy; [|done]. injection Hk as <-.
  by eapply list_elem_of_lookup_2.
Qed.

Lemma encode_loop_bits table s : ∀ encoded bits,
  Forall (Forall is_bit) table → Forall is_bit encoded →
  for_in s
    (λ ch encoded,
       if decide (ch = cp " ") then
         code ← getitem table 26; mret (encoded ++ code)
       else
         code ← getitem table (ord ch - ord (cp "A")); mret (encoded ++ code))
    encoded
  = Ok bits →
  Forall is_bit bits.
Proof.
  induction s as [|c s IH]; intros encoded bits Htable Henc Hrun.
  - by injection Hrun as <-.
  - cbn [for_in] in Hrun. apply bind_Ok in Hrun as (encoded' & Hstep & Hrun).
    apply (IH encoded' bits); [done| |done].
    assert (∃ code, code ∈ table ∧ encoded' = encoded ++ code) as (code & Hin & ->).
    { case_decide; apply bind_Ok in Hstep as (code & Hget & [= <-]);
        exists code; (split; [by eapply getitem_elem|done]). }
    apply Forall_app. split; [done|]. by apply (proj1 (Forall_forall _ _) Htable).
Qed.

Lemma setitem_outcome {B} (l : list B) i x :
  (- Z.of_nat (length l) <= i < Z.of_nat (length l) →
   ∃ l', setitem l i x = Ok l' ∧ length l' = length l)
  ∧ (¬ (- Z.of_nat (length l) <= i < Z.of_nat (length l)) →
     setitem l i x = Raise IndexError).
Proof.
  unfold setitem, py_index. split; intros Hi.
  - destruct (decide (0 <= i < Z.of_nat (length l))).
    + eexists. split; [done|]. by rewrite length_insert.
    + rewrite decide_True by lia. eexists. split; [done|]. by rewrite length_insert.
  - by rewrite !decide_False by lia.
Qed.

Lemma traverse_outcome t : ∀ prefix table,
  length table = 27%nat →
  (Forall (λ c, c = cp " " ∨ (38 <= c <= 91)%N) (symbols t) →
   ∃ table', traverse t prefix table = Ok table' ∧ length table' = 27%nat)
  ∧ (¬ Forall (λ c, c = cp " " ∨ (38 <= c <= 91)%N) (symbols t) →
     traverse t prefix table = Raise IndexError).
Proof.
  unfold symbols. induction t as [w c|w l IHl r IHr]; intros prefix table Hlen.
  - simpl. rewrite Forall_singleton.
    destruct (setitem_outcome table 26 prefix) as [Hsp _].
    destruct (setitem_outcome table (ord c - ord (cp "A")) prefix) as [Hok Hfail].
    rewrite Hlen in *. case_decide as Hc.
    + split; [|by intros []; left]. intros _.
      destruct Hsp as (table' & -> & ?); [lia|]. by exists table'.
    + split.
      * intros [?|Hr]; [done|]. destruct Hok as (table' & -> & ?).
        { unfold_alphabet. lia. }
        by exists table'.
      * intros Hnot. apply Hfail. unfold_alphabet. lia.
  - simpl. rewrite fmap_app, Forall_app.
    destruct (IHl (prefix ++ lit "0") table Hlen) as [Hlok Hlfail].
    destruct (decide (Forall (λ c, c = cp " " ∨ (38 <= c <= 91)%N) (leaves l).*2))
      as [Hl|Hl].
    + destruct (Hlok Hl) as (table1 & -> & Hlen1). run.
      destruct (IHr (prefix ++ lit "1") table1 Hlen1) as [Hrok Hrfail]. split.
      * intros [_ Hr]. by apply Hrok.
      * intros Hnot. apply Hrfail. tauto.
    + rewrite (Hlfail Hl). split; [tauto|done].
Qed.

End table_more.

(** X15. Whatever the tree, as long as its symbols belong to the
    alphabet, its encoding table has 27 entries, each a string of "0"
    and "1", and so is every output that [encode] produces with it. *)
Theorem table_holds_bit_strings (t : Node) :
  Forall in_alphabet (symbols t) →
  ∃ table,
    build_encoding_table t = Ok table
    ∧ length table = 27%nat
    ∧ Forall (Forall is_bit) table
    ∧ ∀ s bits, encode s table = Ok bits → Forall is_bit bits.
Proof.
  intros Halpha. unfold build_encoding_table.
  rewrite traverse_spec by (done || by rewrite length_replicate).
  eexists. split; [done|].
  assert (Forall (Forall is_bit) (fill (replicate 27 (lit "")) (lit "") (paths t)))
    as Hbits.
  { apply fill_Forall.
    - apply Forall_replicate. constructor.
    - apply Forall_forall. intros [c p] Hin. simpl. by eapply paths_bits. }
  split_and!; [by rewrite fill_length, length_replicate|done|].
  intros s bits Hrun. unfold encode in Hrun.
  eapply encode_loop_bits; [exact Hbits| |exact Hrun]. constructor.
Qed.

Lemma table_holds_bit_strings_witness :
  ∃ table,
    build_encoding_table hello_tree = Ok table
    ∧ length table = 27%nat
    ∧ Forall (Forall is_bit) table
    ∧ ∀ s bits, encode s table = Ok bits → Forall is_bit bits.
Proof.
  apply (table_holds_bit_strings hello_tree).
  cbv -[in_alphabet]. repeat (apply List.Forall_cons; [unfold_alphabet; lia|]).
  apply List.Forall_nil.
Defined.

(** X16. In the table of the tree built from 26 counters no code is
    longer than 26 bits: the tree has 27 leaves at most, and a path is
    shorter than the number of leaves. *)
Theorem code_length_bound (frequencies : list Z) :
  length frequencies = 26%nat →
  ∃ t table,
    build_huffman_tree frequencies = Ok t
    ∧ build_encoding_table t = Ok table
    ∧ (length (leaves t) ≤ 27)%nat
    ∧ Forall (λ code, (length code ≤ 26)%nat) table.
Proof.
  intros Hlen.
  destruct (build_huffman_tree_spec frequencies Hlen) as (t & Hbuild & Hperm & _).
  destruct (built_tree_symbols frequencies t Hlen Hbuild) as (_ & Halpha & _).
  assert (length (leaves t) ≤ 27)%nat as Hleaves.
  { rewrite Hperm, bind_app, length_app. simpl.
    assert (length (letter_leaves 0 frequencies ≫= leaves)
            = length (letter_leaves 0 frequencies)) as ->.
    { rewrite <- (length_fmap fst), <- letter_leaves_frequencies.
      by rewrite length_fmap. }
    pose proof (letter_leaves_length frequencies 0). lia. }
  exists t. unfold build_encoding_table.
  rewrite traverse_spec by (done || by rewrite length_replicate).
  eexists. split_and!; [done..|].
  apply fill_Forall.
  - apply Forall_replicate. simpl. lia.
  - apply Forall_forall. intros [c p] Hin. simpl.
    apply paths_length in Hin. lia.
Qed.

Lemma code_length_bound_witness :
  ∃ t table,
    build_huffman_tree hello_freqs = Ok t
    ∧ build_encoding_table t = Ok table
    ∧ (length (leaves t) ≤ 27)%nat
    ∧ Forall (λ code, (length code ≤ 26)%nat) table.
Proof. apply (code_length_bound hello_freqs). reflexivity. Defined.

(** X17. [build_encoding_table] checks no symbol either. On any tree
    it returns a table of 27 entries when every leaf holds the space or
    a character of code point 38 to 91, and raises [IndexError]
    otherwise: the failure is that of the assignment [table[index]]. *)
Theorem build_encoding_table_unchecked (t : Node) :
  (Forall (λ c, c = cp " " ∨ (38 <= c <= 91)%N) (symbols t) →
   ∃ table, build_encoding_table t = Ok table ∧ length table = 27%nat)
  ∧ (¬ Forall (λ c, c = cp " " ∨ (38 <= c <= 91)%N) (symbols t) →
     build_encoding_table t = Raise IndexError).
Proof. apply traverse_outcome. by rewrite length_replicate. Qed.

Lemma build_encoding_table_unchecked_witness :
  (∃ table, build_encoding_table (Internal 2 (Leaf 1 (cp "0")) (Leaf 1 (cp "[")))
            = Ok table ∧ length table = 27%nat)
  ∧ build_encoding_table (Internal 2 (Leaf 1 (cp "A")) (Leaf 1 (cp "a")))
    = Raise IndexError.
Proof.
  split.
  - apply (proj1 (build_encoding_table_unchecked
                    (Internal 2 (Leaf 1 (cp "0")) (Leaf 1 (cp "["))))).
    cbv -[N.le]. repeat (apply List.Forall_cons; [lia|]). apply List.Forall_nil.
  - apply (proj2 (build_encoding_table_unchecked
                    (Internal 2 (Leaf 1 (cp "A")) (Leaf 1 (cp "a"))))).
    cbv -[N.le]. intros [_ [Ha _]%Forall_cons]%Forall_cons. lia.
Defined.

(** ** The whole pipeline, from raw text *)

Section pipeline.
Implicit Types (s : list N).

Lemma filter_ascii s :
  Forall (λ c, (c < 128)%N) s → filter_uppercase_and_spaces s = normalize_ascii s.
Proof.
  induction 1 as [|c s Hc Hs IH]; [done|].
  rewrite filter_uppercase_and_spaces_cons, normalize_ascii_char, IH by done.
  unfold normalize_ascii. rewrite <- fmap_app. f_equal.
  change (c :: s) with ([c] ++ s). by rewrite filter_app.
Qed.

Lemma normalize_ascii_id s : Forall in_alphabet s → normalize_ascii s = s.
Proof.
  unfold normalize_ascii. induction 1 as [|c s Hc Hs IH]; [done|].
  rewrite filter_cons_True.
  - rewrite fmap_cons, IH. f_equal. unfold ascii_upper.
    rewrite decide_False; [done|]. revert Hc. unfold_alphabet. lia.
  - revert Hc. unfold ascii_is_alpha. unfold_alphabet. lia.
Qed.

Lemma normalize_ascii_letter s :
  Exists ascii_is_alpha s → ∃ c, c ∈ normalize_ascii s ∧ is_letter c.
Proof.
  intros (c & Hc & Halpha)%Exists_exists. exists (ascii_upper c). split.
  - unfold normalize_ascii. apply list_elem_of_fmap. exists c. split; [done|].
    apply list_elem_of_filter. split; [by left|done].
  - revert Halpha. unfold ascii_is_alpha, ascii_upper. unfold_alphabet.
    case_decide; lia.
Qed.

Lemma normalize_ascii_blank s :
  ¬ Exists ascii_is_alpha s → Forall (λ c, c = cp " ") (normalize_ascii s).
Proof.
  intros Hno. unfold normalize_ascii. apply Forall_fmap, Forall_forall.
  intros c [[Halpha| ->] Hc]%list_elem_of_filter; simpl.
  - destruct Hno. apply Exists_exists. by exists c.
  - done.
Qed.

End pipeline.

(** X18. The pipeline of the test block, from raw text: for every
    string of ASCII characters, normalising twice is normalising once,
    and the normalised text goes through count, build, encode and
    decode without error; it comes back unchanged when the string holds
    a letter, and as the empty string when it holds none. *)
Theorem normalized_text_round_trip (s : list N) :
  Forall (λ c, (c < 128)%N) s →
  filter_uppercase_and_spaces (filter_uppercase_and_spaces s)
  = filter_uppercase_and_spaces s
  ∧ round_trip (filter_uppercase_and_spaces s)
    = Ok (if decide (Exists ascii_is_alpha s) then filter_uppercase_and_spaces s
          else []).
Proof.
  intros Hascii. rewrite (filter_ascii s Hascii).
  pose proof (normalize_ascii_alphabet s) as Halpha.
  split.
  - rewrite filter_ascii; [by apply normalize_ascii_id|].
    eapply Forall_impl; [exact Halpha|]. intros c. unfold_alphabet. lia.
  - case_decide as Hletter.
    + apply round_trip_with_letter; [done|]. by apply normalize_ascii_letter.
    + destruct (round_trip_blank (normalize_ascii s))
        as (? & ? & ? & _ & _ & _ & _ & _ & _ & Hround); [|done].
      by apply normalize_ascii_blank.
Qed.

Lemma normalized_text_round_trip_witness :
  filter_uppercase_and_spaces (filter_uppercase_and_spaces (lit "Hi, you!"))
  = filter_uppercase_and_spaces (lit "Hi, you!")
  ∧ round_trip (filter_uppercase_and_spaces (lit "Hi, you!"))
    = Ok (if decide (Exists ascii_is_alpha (lit "Hi, you!"))
          then filter_uppercase_and_spaces (lit "Hi, you!") else []).
Proof.
  apply (normalized_text_round_trip (lit "Hi, you!")).
  cbv -[N.lt]. repeat (apply List.Forall_cons; [lia|]). apply List.Forall_nil.
Defined.
